(** * ngx-cookie-ssr: the cookie service, embedded and verified

    Source: [projects/ng-cookie/src/lib/ng-cookie.service.ts], class
    [NgCookieService].

    A JavaScript string is a sequence of 16-bit code units; it is modelled as a
    list of integers.  The built-in functions the service calls
    ([encodeURIComponent], [decodeURIComponent], [String.prototype.split],
    [RegExp.prototype.exec], [Date.prototype.toUTCString], [Headers.set]) are
    modelled after the ECMAScript and Fetch standards, each next to the
    place where the service uses it. *)

From Stdlib Require Import ZArith List Bool Lia String Ascii.
Import ListNotations.
Open Scope Z_scope.

(** ** Strings *)

Definition jsstring := list Z.

(** A string literal of the source, for the ASCII text the service spells out. *)
Definition lit (s : string) : jsstring :=
  map (fun a => Z.of_N (N_of_ascii a)) (list_ascii_of_string s).

Fixpoint streq (a b : jsstring) : bool :=
  match a, b with
  | [], [] => true
  | x :: a', y :: b' => (x =? y) && streq a' b'
  | _, _ => false
  end.

(** [startsWith p s] returns what follows [p] when [s] begins with [p]. *)
Fixpoint startsWith (p s : jsstring) : option jsstring :=
  match p with
  | [] => Some s
  | x :: p' =>
      match s with
      | y :: s' => if x =? y then startsWith p' s' else None
      | [] => None
      end
  end.

(** [includes sub s]: [String.prototype.includes]. *)
Fixpoint includes (sub s : jsstring) : bool :=
  match startsWith sub s with
  | Some _ => true
  | None => match s with
            | [] => false
            | _ :: s' => includes sub s'
            end
  end.

(** Outcome of an operation that may throw. *)
Inductive JsError := URIError | TypeError.

Inductive Completion (A : Type) :=
| Normal (a : A)
| Throw (e : JsError).
Arguments Normal {A} a.
Arguments Throw {A} e.

Definition bindC {A B} (c : Completion A) (k : A -> Completion B) : Completion B :=
  match c with
  | Normal a => k a
  | Throw e => Throw e
  end.

Notation "'let*' x ':=' c 'in' k" := (bindC c (fun x => k))
  (at level 10, x name, c at level 100, k at level 200).

(** ** [encodeURIComponent] (ECMAScript, Encode) *)

Module URI.

(** The characters left as they are: letters, digits and [-_.!~*'()]. *)
Definition unescaped (c : Z) : bool :=
  ((65 <=? c) && (c <=? 90)) || ((97 <=? c) && (c <=? 122)) ||
  ((48 <=? c) && (c <=? 57)) ||
  (c =? 45) || (c =? 95) || (c =? 46) || (c =? 33) || (c =? 126) ||
  (c =? 42) || (c =? 39) || (c =? 40) || (c =? 41).

Definition isLead (c : Z) : bool := (55296 <=? c) && (c <=? 56319).
Definition isTrail (c : Z) : bool := (56320 <=? c) && (c <=? 57343).

(** Upper-case hexadecimal digit of [d], for [0 <= d < 16]. *)
Definition hexDigit (d : Z) : Z := if d <? 10 then 48 + d else 55 + d.

(** ["%XX"] for one octet. *)
Definition pct (b : Z) : jsstring := [37; hexDigit (b / 16); hexDigit (b mod 16)].

(** UTF-8 octets of a code point. *)
Definition utf8 (cp : Z) : list Z :=
  if cp <? 128 then [cp]
  else if cp <? 2048 then [192 + cp / 64; 128 + cp mod 64]
  else if cp <? 65536 then
    [224 + cp / 4096; 128 + (cp / 64) mod 64; 128 + cp mod 64]
  else
    [240 + cp / 262144; 128 + (cp / 4096) mod 64;
     128 + (cp / 64) mod 64; 128 + cp mod 64].

Definition pctUtf8 (cp : Z) : jsstring := flat_map pct (utf8 cp).

(** The code point of a surrogate pair. *)
Definition pairCodePoint (hi lo : Z) : Z :=
  (hi - 55296) * 1024 + (lo - 56320) + 65536.

(** [None] is the URIError thrown on an unpaired surrogate.  A list element
    that is no code unit (outside [0 .. 65535]) is rejected as well; no
    JavaScript string holds one. *)
Fixpoint encodeURIComponent (s : jsstring) : option jsstring :=
  match s with
  | [] => Some []
  | c :: rest =>
      if unescaped c then option_map (cons c) (encodeURIComponent rest)
      else if isLead c then
        match rest with
        | d :: rest' =>
            if isTrail d
            then option_map (app (pctUtf8 (pairCodePoint c d)))
                            (encodeURIComponent rest')
            else None
        | [] => None
        end
      else if isTrail c then None
      else if (0 <=? c) && (c <? 65536)
      then option_map (app (pctUtf8 c)) (encodeURIComponent rest)
      else None
  end.

(** ** [decodeURIComponent] (ECMAScript, Decode) *)

Definition hexVal (c : Z) : option Z :=
  if (48 <=? c) && (c <=? 57) then Some (c - 48)
  else if (65 <=? c) && (c <=? 70) then Some (c - 55)
  else if (97 <=? c) && (c <=? 102) then Some (c - 87)
  else None.

(** The octet of ["%XX"] at the head of [s], and what follows it. *)
Definition readEscape (s : jsstring) : option (Z * jsstring) :=
  match s with
  | p :: h1 :: h2 :: rest =>
      if p =? 37 then
        match hexVal h1, hexVal h2 with
        | Some a, Some b => Some (16 * a + b, rest)
        | _, _ => None
        end
      else None
  | _ => None
  end.

(** [n] further escapes, the continuation octets of a multi-octet sequence. *)
Fixpoint readEscapes (n : nat) (s : jsstring) : option (list Z) :=
  match n with
  | O => Some []
  | S n' =>
      match readEscape s with
      | Some (b, rest) => option_map (cons b) (readEscapes n' rest)
      | None => None
      end
  end.

(** Number of octets announced by the leading octet [b]: the count of its
    leading one bits; [None] where Decode throws (one, or more than four). *)
Definition sequenceLength (b : Z) : option nat :=
  if b <? 128 then Some 1%nat
  else if b <? 192 then None
  else if b <? 224 then Some 2%nat
  else if b <? 240 then Some 3%nat
  else if b <? 248 then Some 4%nat
  else None.

Definition isCont (b : Z) : bool := (128 <=? b) && (b <? 192).

(** The code point of a well-formed UTF-8 sequence: continuation octets in
    [80..BF], shortest form, no surrogate, at most [10FFFF]. *)
Definition utf8Decode (octets : list Z) : option Z :=
  match octets with
  | [b0] => if b0 <? 128 then Some b0 else None
  | [b0; b1] =>
      let cp := (b0 - 192) * 64 + (b1 - 128) in
      if isCont b1 && (128 <=? cp) then Some cp else None
  | [b0; b1; b2] =>
      let cp := (b0 - 224) * 4096 + (b1 - 128) * 64 + (b2 - 128) in
      if isCont b1 && isCont b2 && (2048 <=? cp) &&
         negb ((55296 <=? cp) && (cp <=? 57343))
      then Some cp else None
  | [b0; b1; b2; b3] =>
      let cp := (b0 - 240) * 262144 + (b1 - 128) * 4096 +
                (b2 - 128) * 64 + (b3 - 128) in
      if isCont b1 && isCont b2 && isCont b3 &&
         (65536 <=? cp) && (cp <=? 1114111)
      then Some cp else None
  | _ => None
  end.

(** UTF-16 code units of a code point. *)
Definition codeUnits (cp : Z) : jsstring :=
  if cp <? 65536 then [cp]
  else [55296 + (cp - 65536) / 1024; 56320 + (cp - 65536) mod 1024].

(** One escape sequence at the head of [s] (which starts with [%]): the code
    units it stands for and the number of code units of [s] it takes. *)
Definition decodeAt (s : jsstring) : option (jsstring * nat) :=
  match readEscape s with
  | None => None
  | Some (b, rest) =>
      match sequenceLength b with
      | None => None
      | Some n =>
          match readEscapes (n - 1) rest with
          | None => None
          | Some more =>
              match utf8Decode (b :: more) with
              | None => None
              | Some cp => Some (codeUnits cp, (3 * n)%nat)
              end
          end
      end
  end.

(** The scan of Decode.  [skip] counts the code units of the current escape
    sequence still to be passed over (the index [k] of the standard has
    already moved beyond them).  [None] is the URIError. *)
Fixpoint decodeFrom (skip : nat) (s : jsstring) : option jsstring :=
  match s with
  | [] => Some []
  | c :: rest =>
      match skip with
      | S k => decodeFrom k rest
      | O =>
          if c =? 37 then
            match decodeAt s with
            | None => None
            | Some (units, n) =>
                option_map (app units) (decodeFrom (n - 1) rest)
            end
          else option_map (cons c) (decodeFrom 0 rest)
      end
  end.

Definition decodeURIComponent (s : jsstring) : option jsstring :=
  decodeFrom 0 s.

(** The characters an encoded string is made of. *)
Definition uriChar (c : Z) : bool := unescaped c || (c =? 37).

(** A code point that has a UTF-8 form. *)
Definition scalar (cp : Z) : Prop :=
  0 <= cp < 1114112 /\ ~ (55296 <= cp <= 57343).

End URI.

(** ** The service's static helpers *)

(** [safeDecodeURIComponent]: the [try]/[catch] around [decodeURIComponent]. *)
Definition safeDecodeURIComponent (encodedURIComponent : jsstring) : jsstring :=
  match URI.decodeURIComponent encodedURIComponent with
  | Some decoded => decoded
  | None => encodedURIComponent
  end.

Module RegExp.

(** The class [[\[\]\{\}\(\)\|\=\;\+\?\,\.\*\^\$]] of the replacement in
    [getCookieRegExp]. *)
Definition special (c : Z) : bool :=
  (c =? 91) || (c =? 93) || (c =? 123) || (c =? 125) || (c =? 40) ||
  (c =? 41) || (c =? 124) || (c =? 61) || (c =? 59) || (c =? 43) ||
  (c =? 63) || (c =? 44) || (c =? 46) || (c =? 42) || (c =? 94) || (c =? 36).

(** [name.replace(/([...])/gi, '\\$1')]: a backslash before each such
    character. *)
Fixpoint escapeName (name : jsstring) : jsstring :=
  match name with
  | [] => []
  | c :: rest =>
      if special c then 92 :: c :: escapeName rest else c :: escapeName rest
  end.

(** The pattern text handed to [new RegExp(..., 'g')]. *)
Definition patternSource (name : jsstring) : jsstring :=
  lit "(?:^" ++ escapeName name ++ lit "|;\s*" ++ escapeName name ++
  lit ")=(.*?)(?:;|$)".

(** How the pattern reads the escaped name: a backslash followed by a
    character of the class above is that character; any other character
    that is not pattern syntax is itself.  [None]: the text is more than a
    literal (a bare backslash or syntax character). *)
Definition syntaxChar (c : Z) : bool :=
  (c =? 92) || (c =? 91) || (c =? 93) || (c =? 123) || (c =? 125) ||
  (c =? 40) || (c =? 41) || (c =? 124) || (c =? 43) || (c =? 63) ||
  (c =? 46) || (c =? 42) || (c =? 94) || (c =? 36).

Fixpoint readLiteral (p : jsstring) : option jsstring :=
  match p with
  | [] => Some []
  | c :: rest =>
      if c =? 92 then
        match rest with
        | d :: rest' =>
            if special d then option_map (cons d) (readLiteral rest') else None
        | [] => None
        end
      else if syntaxChar c then None
      else option_map (cons c) (readLiteral rest)
  end.

(** The pattern [(?:^L|;\s*L)=(.*?)(?:;|$)] with flag [g] only: [L] is
    compared code unit by code unit (no [i] flag on this pattern; the [gi]
    of the source belongs to the replacement above). *)
Record t := { literal : jsstring }.

(** [.] matches all but line terminators; [\s] is white space and line
    terminators. *)
Definition isLineTerminator (c : Z) : bool :=
  (c =? 10) || (c =? 13) || (c =? 8232) || (c =? 8233).

Definition isWhiteSpace (c : Z) : bool :=
  (c =? 9) || (c =? 10) || (c =? 11) || (c =? 12) || (c =? 13) ||
  (c =? 32) || (c =? 160) || (c =? 5760) ||
  ((8192 <=? c) && (c <=? 8202)) ||
  (c =? 8232) || (c =? 8233) || (c =? 8239) || (c =? 8287) ||
  (c =? 12288) || (c =? 65279).

(** [(.*?)(?:;|$)]: the lazy group stops at the first [;], or at the end of
    the input; it cannot step over a line terminator. *)
Fixpoint matchValue (s : jsstring) : option jsstring :=
  match s with
  | [] => Some []
  | c :: rest =>
      if c =? 59 then Some []
      else if isLineTerminator c then None
      else option_map (cons c) (matchValue rest)
  end.

(** [L=(.*?)(?:;|$)] at the head of [s]; the result is capture group 1. *)
Definition matchName (name s : jsstring) : option jsstring :=
  match startsWith name s with
  | Some (c :: rest) => if c =? 61 then matchValue rest else None
  | _ => None
  end.

(** [\s*L=...]: the greedy star takes all the white space first and gives
    it back one unit at a time. *)
Fixpoint matchSpaces (name s : jsstring) : option jsstring :=
  match s with
  | c :: rest =>
      if isWhiteSpace c then
        match matchSpaces name rest with
        | Some v => Some v
        | None => matchName name s
        end
      else matchName name s
  | [] => matchName name s
  end.

(** The whole pattern at one position; [atStart] says the position is 0,
    where alone [^] holds.  The first alternative is tried first. *)
Definition matchHere (atStart : bool) (name s : jsstring) : option jsstring :=
  match (if atStart then matchName name s else None) with
  | Some v => Some v
  | None =>
      match s with
      | c :: rest => if c =? 59 then matchSpaces name rest else None
      | [] => None
      end
  end.

(** The leftmost match, scanning from [lastIndex = 0]. *)
Fixpoint search (atStart : bool) (name s : jsstring) : option jsstring :=
  match matchHere atStart name s with
  | Some v => Some v
  | None =>
      match s with
      | [] => None
      | _ :: rest => search false name rest
      end
  end.

(** [regExp.exec(s)] on a fresh object: [result[1]], or [None] for [null]. *)
Definition exec (re : t) (s : jsstring) : option jsstring :=
  search true (literal re) s.

(** [regExp.test(s)] on a fresh object. *)
Definition test (re : t) (s : jsstring) : bool :=
  match exec re s with Some _ => true | None => false end.

(** A string the lazy group can take whole: no [;], no line terminator. *)
Definition plain (s : jsstring) : Prop :=
  Forall (fun c => (c =? 59) = false /\ isLineTerminator c = false) s.

(** A string with none of [;], [=], backslash and white space: what the
    components of an encoded cookie are. *)
Definition token (s : jsstring) : Prop :=
  Forall (fun c => (c =? 59) = false /\ (c =? 61) = false /\
                   (c =? 92) = false /\ isWhiteSpace c = false) s.

End RegExp.

(** [getCookieRegExp].  [None] stands for a pattern whose name part is not
    a literal: a name with a backslash, which the replacement leaves bare.
    [check] and [get] pass percent-encoded names, which have none. *)
Definition getCookieRegExp (name : jsstring) : option RegExp.t :=
  option_map RegExp.Build_t (RegExp.readLiteral (RegExp.escapeName name)).

(** ** Parsing: [String.prototype.split] and the result object of [getAll] *)

(** [s.split(sep)] for a one-character separator: one more piece than
    there are separators. *)
Fixpoint split (sep : Z) (s : jsstring) : list jsstring :=
  match s with
  | [] => [[]]
  | c :: rest =>
      if c =? sep then [] :: split sep rest
      else match split sep rest with
           | piece :: pieces => (c :: piece) :: pieces
           | [] => [[c]]
           end
  end.

(** [cookieName.replace(/^ /, '')]. *)
Definition stripLeadingSpace (s : jsstring) : jsstring :=
  match s with
  | c :: rest => if c =? 32 then rest else s
  | [] => []
  end.

(** [ToString] of a piece that may be [undefined]. *)
Definition toStringOrUndefined (v : option jsstring) : jsstring :=
  match v with
  | Some s => s
  | None => lit "undefined"
  end.

Module JsObject.

(** The own properties of an object created by [{}], in creation order. *)
Definition t := list (jsstring * jsstring).

(** The own property under [k], if there is one. *)
Fixpoint get (k : jsstring) (o : t) : option jsstring :=
  match o with
  | [] => None
  | (k', v) :: o' => if streq k k' then Some v else get k o'
  end.

(** The members that an object created by [{}] inherits from
    [Object.prototype] (ECMAScript, with its Annex B). *)
Definition prototypeNames : list jsstring :=
  map lit ["constructor"; "hasOwnProperty"; "isPrototypeOf";
           "propertyIsEnumerable"; "toLocaleString"; "toString"; "valueOf";
           "__proto__"; "__defineGetter__"; "__defineSetter__";
           "__lookupGetter__"; "__lookupSetter__"]%string.

(** What [o[k]] evaluates to: the string of the own property; without one,
    the member of [Object.prototype] of that name (a function, and for
    [__proto__] the prototype object); [undefined] otherwise. *)
Inductive Member :=
| Own (v : jsstring)
| Inherited (k : jsstring)
| Undefined.

Definition read (k : jsstring) (o : t) : Member :=
  match get k o with
  | Some v => Own v
  | None => if existsb (streq k) prototypeNames then Inherited k else Undefined
  end.

Fixpoint put (k v : jsstring) (o : t) : t :=
  match o with
  | [] => [(k, v)]
  | (k', v') :: o' =>
      if streq k k' then (k', v) :: o' else (k', v') :: put k v o'
  end.

(** [o[k] = v] for a string [v].  The key [__proto__] reaches the accessor
    inherited from [Object.prototype], which ignores a value that is not an
    object: no own property is created. *)
Definition assign (k v : jsstring) (o : t) : t :=
  if streq k (lit "__proto__") then o else put k v o.

(** Keys that are array indices ([0], or digits without a leading zero, up
    to [2^32 - 2]) come first in a [for ... in], in ascending order. *)
Definition isDigit (c : Z) : bool := (48 <=? c) && (c <=? 57).

Definition decimalValue (k : jsstring) : Z :=
  fold_left (fun acc c => 10 * acc + (c - 48)) k 0.

Definition arrayIndex (k : jsstring) : option Z :=
  match k with
  | [] => None
  | c :: rest =>
      if forallb isDigit k &&
         implb (c =? 48) (match rest with [] => true | _ => false end) &&
         (List.length k <=? 10)%nat && (decimalValue k <=? 4294967294)
      then Some (decimalValue k) else None
  end.

Fixpoint insertIndex (i : Z) (k : jsstring) (l : list (Z * jsstring))
  : list (Z * jsstring) :=
  match l with
  | [] => [(i, k)]
  | (j, k') :: l' =>
      if i <=? j then (i, k) :: l else (j, k') :: insertIndex i k l'
  end.

Definition indexKeys (o : t) : list (Z * jsstring) :=
  fold_left (fun acc kv =>
               match arrayIndex (fst kv) with
               | Some i => insertIndex i (fst kv) acc
               | None => acc
               end) o [].

(** The keys a [for ... in] visits. *)
Definition keys (o : t) : list jsstring :=
  map snd (indexKeys o) ++
  filter (fun k => match arrayIndex k with Some _ => false | None => true end)
         (map fst o).

End JsObject.

(** One turn of the loop of [getAll]: a piece is cut at every [=]; the
    first part is the name, the second (if any) the value. *)
Definition parseStep (cookies : JsObject.t) (currentCookie : jsstring)
  : JsObject.t :=
  let parts := split 61 currentCookie in
  let cookieName := hd [] parts in
  let cookieValue := nth_error parts 1 in
  JsObject.assign
    (safeDecodeURIComponent (stripLeadingSpace cookieName))
    (safeDecodeURIComponent (toStringOrUndefined cookieValue))
    cookies.

(** The parser of [getAll], on the raw cookie string. *)
Definition parseAll (cookieString : jsstring) : JsObject.t :=
  match cookieString with
  | [] => []
  | _ => fold_left parseStep (split 59 cookieString) []
  end.

(** ** Dates: [new Date(ms)] and [Date.prototype.toUTCString] *)

Module JsDate.

(** The time value of a [Date], in milliseconds since the epoch and within
    the bound of TimeClip; [None] is the invalid date (time value NaN). *)
Definition t := option Z.

(** TimeClip, applied by [new Date(ms)]. *)
Definition timeClip (ms : Z) : t :=
  if Z.abs ms <=? 8640000000000000 then Some ms else None.

Definition msPerDay : Z := 86400000.

(** Year, month (1-12) and day of the month of a day number, in the
    proleptic Gregorian calendar. *)
Definition civil (day : Z) : Z * Z * Z :=
  let z := day + 719468 in
  let era := z / 146097 in
  let doe := z - era * 146097 in
  let yoe := (doe - doe / 1460 + doe / 36524 - doe / 146096) / 365 in
  let doy := doe - (365 * yoe + yoe / 4 - yoe / 100) in
  let mp := (5 * doy + 2) / 153 in
  let d := doy - (153 * mp + 2) / 5 + 1 in
  let m := if mp <? 10 then mp + 3 else mp - 9 in
  (yoe + era * 400 + (if m <=? 2 then 1 else 0), m, d).

Definition dayNames : list string :=
  ["Sun"; "Mon"; "Tue"; "Wed"; "Thu"; "Fri"; "Sat"]%string.

Definition monthNames : list string :=
  ["Jan"; "Feb"; "Mar"; "Apr"; "May"; "Jun";
   "Jul"; "Aug"; "Sep"; "Oct"; "Nov"; "Dec"]%string.

Definition digit (n : Z) : Z := 48 + n mod 10.

Definition twoDigits (n : Z) : jsstring := [digit (n / 10); digit n].

(** The year, zero-padded to four digits at least (it has six at most). *)
Definition paddedYear (y : Z) : jsstring :=
  (if 100000 <=? y then [digit (y / 100000)] else []) ++
  (if 10000 <=? y then [digit (y / 10000)] else []) ++
  [digit (y / 1000); digit (y / 100); digit (y / 10); digit y].

Definition toUTCString (d : t) : jsstring :=
  match d with
  | None => lit "Invalid Date"
  | Some tv =>
      let day := tv / msPerDay in
      let ms := tv mod msPerDay in
      let '(y, m, dd) := civil day in
      lit (nth (Z.to_nat ((day + 4) mod 7)) dayNames ""%string) ++ lit ", " ++
      twoDigits dd ++ lit " " ++
      lit (nth (Z.to_nat (m - 1)) monthNames ""%string) ++ lit " " ++
      (if y <? 0 then lit "-" else []) ++ paddedYear (Z.abs y) ++ lit " " ++
      twoDigits (ms / 3600000) ++ lit ":" ++
      twoDigits ((ms / 60000) mod 60) ++ lit ":" ++
      twoDigits ((ms / 1000) mod 60) ++ lit " GMT"
  end.

End JsDate.

(** ** The attributes of [set] *)

Inductive SameSite := Lax | None_ | Strict.

Definition sameSiteText (s : SameSite) : jsstring :=
  match s with
  | Lax => lit "Lax"
  | None_ => lit "None"
  | Strict => lit "Strict"
  end.

(** The [expires] member: a number of days or a [Date].  A number is
    modelled for whole numbers of days (no fraction, NaN or infinity), on
    which the arithmetic of [set] is exact up to the bound of TimeClip. *)
Inductive Expires :=
| ExpNumber (days : Z)
| ExpDate (d : JsDate.t).

Record Options := {
  expires : option Expires;
  path : option jsstring;
  domain : option jsstring;
  secure : option bool;
  sameSite : option SameSite;
  partitioned : option bool
}.

(** [{}] *)
Definition noOptions : Options :=
  {| expires := None; path := None; domain := None; secure := None;
     sameSite := None; partitioned := None |}.

(** Truthiness of an optional string and of an optional boolean. *)
Definition truthyString (s : option jsstring) : bool :=
  match s with
  | Some (_ :: _) => true
  | _ => false
  end.

Definition truthyBool (b : option bool) : bool :=
  match b with
  | Some true => true
  | _ => false
  end.

Definition isSome {A} (o : option A) : bool :=
  match o with Some _ => true | None => false end.

Definition warningText (name : jsstring) : jsstring :=
  lit "[ngx-cookie-service] Cookie " ++ name ++
  lit " was forced with secure flag because sameSite=None." ++
  lit "More details : https://github.com/stevermeister/ngx-cookie-service/issues/86#issuecomment-597720130".

(** The [expires] part of the cookie string (lines 217-227); [now] is
    [new Date().getTime()]. *)
Definition expiresPart (now : Z) (e : option Expires) : jsstring :=
  match e with
  | None => []
  | Some (ExpNumber days) =>
      if days =? 0 then []
      else lit "expires=" ++
           JsDate.toUTCString
             (JsDate.timeClip (now + days * 1000 * 60 * 60 * 24)) ++
           lit ";"
  | Some (ExpDate d) => lit "expires=" ++ JsDate.toUTCString d ++ lit ";"
  end.

(** [secure === false && sameSite === 'None'] *)
Definition coerced (options : Options) : bool :=
  match secure options, sameSite options with
  | Some false, Some None_ => true
  | _, _ => false
  end.

(** The cookie string that [set] builds from an attributes object (lines
    212-257), with the texts passed to [console.warn] on the way. *)
Definition cookieStringOf (now : Z) (name value : jsstring) (options : Options)
  : Completion (jsstring * list jsstring) :=
  match URI.encodeURIComponent name, URI.encodeURIComponent value with
  | Some encodedName, Some encodedValue =>
      let secure' := if coerced options then Some true else secure options in
      Normal
        (encodedName ++ lit "=" ++ encodedValue ++ lit ";" ++
         expiresPart now (expires options) ++
         (if truthyString (path options)
          then lit "path=" ++ toStringOrUndefined (path options) ++ lit ";"
          else []) ++
         (if truthyString (domain options)
          then lit "domain=" ++ toStringOrUndefined (domain options) ++ lit ";"
          else []) ++
         (if truthyBool secure' then lit "secure;" else []) ++
         lit "sameSite=" ++
         sameSiteText (match sameSite options with Some x => x | None => Lax end) ++
         lit ";" ++
         (if truthyBool (partitioned options) then lit "Partitioned;" else []),
         if coerced options then [warningText name] else [])
  | _, _ => Throw URIError
  end.

(** The third argument of [set]. *)
Inductive ExpiresOrOptions :=
| EOUndefined
| EONumber (days : Z)
| EODate (d : JsDate.t)
| EOOptions (o : Options).

(** The test of lines 191-198. *)
Definition attributeLike (expiresOrOptions : ExpiresOrOptions)
    (path domain : option jsstring) (secure : option bool)
    (sameSite : option SameSite) : bool :=
  match expiresOrOptions with
  | EONumber _ | EODate _ => true
  | _ => truthyString path || truthyString domain || truthyBool secure ||
         isSome sameSite
  end.

(** [optionsBody] of lines 199-206, for a third argument that is missing,
    a number or a [Date]. *)
Definition optionsBody (expires : option Expires)
    (path domain : option jsstring) (secure : option bool)
    (sameSite : option SameSite) (partitioned : option bool) : Options :=
  {| expires := expires; path := path; domain := domain; secure := secure;
     sameSite := Some (match sameSite with Some x => x | None => Lax end);
     partitioned := partitioned |}.

(** ** The header collection ([Headers] of the Fetch standard) *)

Module Headers.

Definition t := list (jsstring * jsstring).

Definition lower (c : Z) : Z := if (65 <=? c) && (c <=? 90) then c + 32 else c.

(** Header names are compared without regard to ASCII case. *)
Definition sameName (a b : jsstring) : bool := streq (map lower a) (map lower b).

Fixpoint joinValues (vs : list jsstring) : jsstring :=
  match vs with
  | [] => []
  | [v] => v
  | v :: vs' => v ++ lit ", " ++ joinValues vs'
  end.

(** [headers.get(name)]: the values under that name joined by [", "], or
    [None] for [null]. *)
Definition get (name : jsstring) (h : t) : option jsstring :=
  match filter (fun e => sameName name (fst e)) h with
  | [] => None
  | es => Some (joinValues (map snd es))
  end.

Definition httpWhitespace (c : Z) : bool :=
  (c =? 9) || (c =? 10) || (c =? 13) || (c =? 32).

Fixpoint stripLeading (s : jsstring) : jsstring :=
  match s with
  | c :: rest => if httpWhitespace c then stripLeading rest else s
  | [] => []
  end.

(** A value is normalized (white space stripped at both ends) and must
    then be a byte string without NUL, LF and CR. *)
Definition normalize (v : jsstring) : jsstring :=
  rev (stripLeading (rev (stripLeading v))).

Definition validValue (v : jsstring) : bool :=
  forallb (fun c => (0 <? c) && (c <=? 255) && negb (c =? 10) && negb (c =? 13)) v.

(** The first entry under [name] takes the value, the others go. *)
Fixpoint replace (name v : jsstring) (h : t) : t :=
  match h with
  | [] => []
  | e :: h' =>
      if sameName name (fst e)
      then (fst e, v) :: filter (fun e' => negb (sameName name (fst e'))) h'
      else e :: replace name v h'
  end.

(** [headers.set(name, value)]; [None] is the TypeError for a bad value. *)
Definition set (name value : jsstring) (h : t) : option t :=
  let v := normalize value in
  if validValue v then
    Some (if existsb (fun e => sameName name (fst e)) h
          then replace name v h
          else h ++ [(name, v)])
  else None.

(** [headers.append(name, value)], which the service does not call. *)
Definition append (name value : jsstring) (h : t) : option t :=
  let v := normalize value in
  if validValue v then Some (h ++ [(name, v)]) else None.

End Headers.

(** ** The service *)

Section Dispatcher.

(** The document of the browser: its [cookie] getter and setter. *)
Variable Document : Type.
Variable documentCookie : Document -> jsstring.
Variable assignCookie : jsstring -> Document -> Document.

Record Service := {
  documentIsAccessible : bool;
  document : Document;
  (** [REQUEST]: the header list of the incoming request, if any. *)
  request : option Headers.t;
  (** [RESPONSE_INIT] and its [headers], either of which may be missing. *)
  responseInit : option (option Headers.t);
  (** What [console.warn] has printed. *)
  console : list jsstring
}.

Inductive Outcome :=
| Returned (svc : Service)
| Threw (e : JsError) (svc : Service).

Definition stateOf (o : Outcome) : Service :=
  match o with
  | Returned svc => svc
  | Threw _ svc => svc
  end.

(** [cookie()] *)
Definition cookie (svc : Service) : jsstring :=
  if documentIsAccessible svc then documentCookie (document svc)
  else match request svc with
       | Some headers =>
           match Headers.get (lit "cookie") headers with
           | Some v => v
           | None => []
           end
       | None => []
       end.

(** [check(name)] on a given raw cookie string.  The name is encoded first;
    an encoded name has no backslash, so the branch where the pattern is
    not a literal is never taken ([getCookieRegExp_token] below). *)
Definition checkIn (cookieString name : jsstring) : Completion bool :=
  match URI.encodeURIComponent name with
  | None => Throw URIError
  | Some encodedName =>
      match getCookieRegExp encodedName with
      | Some regExp => Normal (RegExp.test regExp cookieString)
      | None => Throw TypeError
      end
  end.

Definition check (svc : Service) (name : jsstring) : Completion bool :=
  checkIn (cookie svc) name.

(** [get(name)] on a given raw cookie string: [check], then a second, fresh
    pattern and its first match. *)
Definition getIn (cookieString name : jsstring) : Completion jsstring :=
  let* found := checkIn cookieString name in
  if found then
    match URI.encodeURIComponent name with
    | None => Throw URIError
    | Some encodedName =>
        match getCookieRegExp encodedName with
        | Some regExp =>
            match RegExp.exec regExp cookieString with
            | None => Normal []
            | Some [] => Normal []
            | Some capture => Normal (safeDecodeURIComponent capture)
            end
        | None => Throw TypeError
        end
    end
  else Normal [].

Definition get (svc : Service) (name : jsstring) : Completion jsstring :=
  getIn (cookie svc) name.

Definition getAll (svc : Service) : JsObject.t := parseAll (cookie svc).

(** Lines 259-264. *)
Definition write (svc : Service) (cookieString : jsstring) : Outcome :=
  if documentIsAccessible svc then
    Returned {| documentIsAccessible := documentIsAccessible svc;
                document := assignCookie cookieString (document svc);
                request := request svc;
                responseInit := responseInit svc;
                console := console svc |}
  else
    match responseInit svc with
    | Some (Some headers) =>
        match Headers.set (lit "Set-Cookie") cookieString headers with
        | Some headers' =>
            Returned {| documentIsAccessible := documentIsAccessible svc;
                        document := document svc;
                        request := request svc;
                        responseInit := Some (Some headers');
                        console := console svc |}
        | None => Threw TypeError svc
        end
    | _ => Returned svc
    end.

Definition warn (svc : Service) (texts : list jsstring) : Service :=
  {| documentIsAccessible := documentIsAccessible svc;
     document := document svc;
     request := request svc;
     responseInit := responseInit svc;
     console := console svc ++ texts |}.

(** Lines 212-265: build the string from the attributes object, warn,
    write. *)
Definition setWith (svc : Service) (now : Z) (name value : jsstring)
    (options : Options) : Outcome :=
  match cookieStringOf now name value options with
  | Throw e => Threw e svc
  | Normal (cookieString, warnings) => write (warn svc warnings) cookieString
  end.

(** [set], on the arguments of its implementation signature.  When the
    test of line 191 holds, [optionsBody] is handed to [set] again; there
    the test fails (the third argument is an object, the others are
    missing) and the body from line 212 runs.  A call with an attributes object
    and a positional attribute as well is outside both declared signatures:
    [optionsBody.expires] then holds the object, and line 225 calls a
    [toUTCString] that it does not have, after the name and the value have
    been encoded. *)
Definition set (svc : Service) (now : Z) (name value : jsstring)
    (expiresOrOptions : ExpiresOrOptions) (path domain : option jsstring)
    (secure : option bool) (sameSite : option SameSite)
    (partitioned : option bool) : Outcome :=
  if attributeLike expiresOrOptions path domain secure sameSite then
    match expiresOrOptions with
    | EOUndefined =>
        setWith svc now name value
          (optionsBody None path domain secure sameSite partitioned)
    | EONumber days =>
        setWith svc now name value
          (optionsBody (Some (ExpNumber days)) path domain secure sameSite
             partitioned)
    | EODate d =>
        setWith svc now name value
          (optionsBody (Some (ExpDate d)) path domain secure sameSite
             partitioned)
    | EOOptions _ =>
        match cookieStringOf now name value noOptions with
        | Throw e => Threw e svc
        | Normal _ => Threw TypeError svc
        end
    end
  else
    setWith svc now name value
      (match expiresOrOptions with
       | EOOptions options => options
       | _ => noOptions
       end).

(** The two declared signatures of [set]. *)
Definition setPositional (svc : Service) (now : Z) (name value : jsstring)
    (expires : option Expires) (path domain : option jsstring)
    (secure : option bool) (sameSite : option SameSite)
    (partitioned : option bool) : Outcome :=
  set svc now name value
      (match expires with
       | None => EOUndefined
       | Some (ExpNumber days) => EONumber days
       | Some (ExpDate d) => EODate d
       end)
      path domain secure sameSite partitioned.

Definition setOptions (svc : Service) (now : Z) (name value : jsstring)
    (options : option Options) : Outcome :=
  set svc now name value
      (match options with
       | Some o => EOOptions o
       | None => EOUndefined
       end)
      None None None None None.

(** [new Date('Thu, 01 Jan 1970 00:00:01 GMT')] *)
Definition expiresDate : JsDate.t := Some 1000.

(** [delete]; a missing [sameSite] takes the default ['Lax']. *)
Definition delete (svc : Service) (now : Z) (name : jsstring)
    (path domain : option jsstring) (secure : option bool)
    (sameSite : option SameSite) : Outcome :=
  set svc now name []
      (EOOptions {| expires := Some (ExpDate expiresDate);
                    path := path; domain := domain; secure := secure;
                    sameSite := Some (match sameSite with
                                      | Some x => x
                                      | None => Lax
                                      end);
                    partitioned := None |})
      None None None None None.

Fixpoint deleteEach (svc : Service) (now : Z) (names : list jsstring)
    (path domain : option jsstring) (secure : option bool)
    (sameSite : option SameSite) : Outcome :=
  match names with
  | [] => Returned svc
  | name :: rest =>
      match delete svc now name path domain secure sameSite with
      | Returned svc' => deleteEach svc' now rest path domain secure sameSite
      | Threw e svc' => Threw e svc'
      end
  end.

(** [deleteAll].  A cookie named [hasOwnProperty] shadows the method the
    loop calls, and the call throws. *)
Definition deleteAll (svc : Service) (now : Z)
    (path domain : option jsstring) (secure : option bool)
    (sameSite : option SameSite) : Outcome :=
  let cookies := getAll svc in
  match JsObject.keys cookies with
  | [] => Returned svc
  | names =>
      match JsObject.get (lit "hasOwnProperty") cookies with
      | Some _ => Threw TypeError svc
      | None => deleteEach svc now names path domain secure sameSite
      end
  end.

(** The operations of the service, and a run of them on one instance. *)
Inductive Op :=
| OCheck (name : jsstring)
| OGet (name : jsstring)
| OGetAll
| OSet (now : Z) (name value : jsstring) (expiresOrOptions : ExpiresOrOptions)
       (path domain : option jsstring) (secure : option bool)
       (sameSite : option SameSite) (partitioned : option bool)
| ODelete (now : Z) (name : jsstring) (path domain : option jsstring)
          (secure : option bool) (sameSite : option SameSite)
| ODeleteAll (now : Z) (path domain : option jsstring)
             (secure : option bool) (sameSite : option SameSite).

Definition step (svc : Service) (op : Op) : Service :=
  match op with
  | OCheck _ | OGet _ | OGetAll => svc
  | OSet now name value eo path domain secure sameSite partitioned =>
      stateOf (set svc now name value eo path domain secure sameSite partitioned)
  | ODelete now name path domain secure sameSite =>
      stateOf (delete svc now name path domain secure sameSite)
  | ODeleteAll now path domain secure sameSite =>
      stateOf (deleteAll svc now path domain secure sameSite)
  end.

Definition run (svc : Service) (ops : list Op) : Service :=
  fold_left step ops svc.

End Dispatcher.

Arguments documentIsAccessible {Document} s.
Arguments document {Document} s.
Arguments request {Document} s.
Arguments responseInit {Document} s.
Arguments console {Document} s.
Arguments Returned {Document} svc.
Arguments Threw {Document} e svc.
Arguments stateOf {Document} o.
Arguments cookie {Document} documentCookie svc.
Arguments check {Document} documentCookie svc name.
Arguments get {Document} documentCookie svc name.
Arguments getAll {Document} documentCookie svc.
Arguments write {Document} assignCookie svc cookieString.
Arguments warn {Document} svc texts.
Arguments setWith {Document} assignCookie svc now name value options.
Arguments set {Document} assignCookie svc now name value expiresOrOptions
  path domain secure sameSite partitioned.
Arguments setPositional {Document} assignCookie svc now name value expires
  path domain secure sameSite partitioned.
Arguments setOptions {Document} assignCookie svc now name value options.
Arguments delete {Document} assignCookie svc now name path domain secure sameSite.
Arguments deleteEach {Document} assignCookie svc now names path domain secure
  sameSite.
Arguments deleteAll {Document} documentCookie assignCookie svc now path domain
  secure sameSite.
Arguments step {Document} documentCookie assignCookie svc op.
Arguments run {Document} documentCookie assignCookie svc ops.

(** An instance on the server: there is no document, the request carries
    [cookieHeader] (if any) and the response starts with [headers]. *)
Definition noDocumentCookie (_ : unit) : jsstring := [].
Definition noAssignCookie (_ : jsstring) (d : unit) : unit := d.

Definition serverInstance (cookieHeader : option jsstring) (headers : Headers.t)
  : Service unit :=
  {| documentIsAccessible := false;
     document := tt;
     request := Some match cookieHeader with
                     | Some c => [(lit "cookie", c)]
                     | None => []
                     end;
     responseInit := Some (Some headers);
     console := [] |}.

(** ** Notions the statements below use *)

(** A name with its ASCII letters in lower case. *)
Definition foldCase (s : jsstring) : jsstring := map Headers.lower s.

(** A raw cookie string as the browser and the [Cookie] header give it:
    [name=value] pairs, each component percent-encoded, joined by ["; "]. *)
Definition pairText (p : jsstring * jsstring) : jsstring :=
  fst p ++ lit "=" ++ snd p.

(** The text of the pairs after the first. *)
Definition tailText (pairs : list (jsstring * jsstring)) : jsstring :=
  flat_map (fun q => lit "; " ++ pairText q) pairs.

Definition joinPairs (pairs : list (jsstring * jsstring)) : jsstring :=
  match pairs with
  | [] => []
  | p :: rest => pairText p ++ tailText rest
  end.

Fixpoint encodeCookies (cookies : list (jsstring * jsstring))
  : option (list (jsstring * jsstring)) :=
  match cookies with
  | [] => Some []
  | (name, value) :: rest =>
      match URI.encodeURIComponent name, URI.encodeURIComponent value,
            encodeCookies rest with
      | Some n, Some v, Some r => Some ((n, v) :: r)
      | _, _, _ => None
      end
  end.

Definition rawCookieString (cookies : list (jsstring * jsstring))
  : option jsstring :=
  option_map joinPairs (encodeCookies cookies).

(** The value of the first and of the last cookie called [name]. *)
Fixpoint firstValue (name : jsstring) (cookies : list (jsstring * jsstring))
  : option jsstring :=
  match cookies with
  | [] => None
  | (n, v) :: rest => if streq name n then Some v else firstValue name rest
  end.

Fixpoint lastValue (name : jsstring) (cookies : list (jsstring * jsstring))
  : option jsstring :=
  match cookies with
  | [] => None
  | (n, v) :: rest =>
      match lastValue name rest with
      | Some w => Some w
      | None => if streq name n then Some v else None
      end
  end.

(** A pair of encoded components, and the piece of the raw string that a
    pair after the first makes. *)
Definition tokenPair (p : jsstring * jsstring) : Prop :=
  RegExp.token (fst p) /\ RegExp.token (snd p).

Definition fragmentText (q : jsstring * jsstring) : jsstring :=
  32 :: fst q ++ 61 :: snd q.

(** The assignment a piece [name=value] of the raw string leads to. *)
Definition assignPair (cookies : JsObject.t) (q : jsstring * jsstring)
  : JsObject.t :=
  JsObject.assign (safeDecodeURIComponent (fst q))
                  (safeDecodeURIComponent (snd q)) cookies.

(** Percent-decoding as a relation between a text and what it stands for,
    stated apart from the scan of [decodeURIComponent]: the text is a
    sequence of items, each either one code unit other than [%], which
    stands for itself, or the escapes [%XX] of the UTF-8 octets of one code
    point, with hexadecimal digits of either case, which stand for that
    code point (for its surrogate pair beyond [FFFF]). *)
Definition hexDigitOf (d c : Z) : Prop :=
  (0 <= d <= 9 /\ c = 48 + d) \/
  (10 <= d <= 15 /\ (c = 55 + d \/ c = 87 + d)).

Inductive Escaped : list Z -> jsstring -> Prop :=
| Escaped_nil : Escaped [] []
| Escaped_cons (hi lo h1 h2 : Z) (octets : list Z) (e : jsstring) :
    hexDigitOf hi h1 -> hexDigitOf lo h2 -> Escaped octets e ->
    Escaped (16 * hi + lo :: octets) (37 :: h1 :: h2 :: e).

Inductive PercentDecoded : jsstring -> jsstring -> Prop :=
| Decoded_nil : PercentDecoded [] []
| Decoded_unit (c : Z) (s d : jsstring) :
    c <> 37 -> PercentDecoded s d -> PercentDecoded (c :: s) (c :: d)
| Decoded_bmp (cp : Z) (e s d : jsstring) :
    URI.scalar cp -> cp < 65536 -> Escaped (URI.utf8 cp) e ->
    PercentDecoded s d -> PercentDecoded (e ++ s) (cp :: d)
| Decoded_pair (hi lo : Z) (e s d : jsstring) :
    URI.isLead hi = true -> URI.isTrail lo = true ->
    Escaped (URI.utf8 (URI.pairCodePoint hi lo)) e ->
    PercentDecoded s d -> PercentDecoded (e ++ s) (hi :: lo :: d).

(** What every step of [getAll] keeps. *)
Definition wellKeyed (o : JsObject.t) : Prop :=
  NoDup (map fst o) /\ ~ In (lit "__proto__") (map fst o).

(** The string [delete] writes for a name (empty where the name cannot be
    encoded and nothing is written). *)
Definition deletedCookie (path domain : option jsstring) (secure : option bool)
    (sameSite : option SameSite) (name : jsstring) : jsstring :=
  match cookieStringOf 0 name []
          {| expires := Some (ExpDate expiresDate);
             path := path; domain := domain; secure := secure;
             sameSite := Some match sameSite with
                              | Some x => x
                              | None => Lax
                              end;
             partitioned := None |} with
  | Normal (cookieString, _) => cookieString
  | Throw _ => []
  end.

(** A document that keeps its cookie text and records what is assigned to
    it, for examples in the browser. *)
Definition recordedCookie (d : jsstring * list jsstring) : jsstring := fst d.
Definition recordAssign (s : jsstring) (d : jsstring * list jsstring)
  : jsstring * list jsstring := (fst d, snd d ++ [s]).

Definition browserInstance (cookieText : jsstring)
  : Service (jsstring * list jsstring) :=
  {| documentIsAccessible := true;
     document := (cookieText, []);
     request := None;
     responseInit := None;
     console := [] |}.

(** * Properties *)

(** ** Strings *)

(** Case analysis on every integer comparison of the goal. *)
Ltac zbool :=
  repeat match goal with
    | |- context [Z.ltb ?a ?b] => destruct (Z.ltb_spec a b)
    | |- context [Z.leb ?a ?b] => destruct (Z.leb_spec a b)
    | |- context [Z.eqb ?a ?b] => destruct (Z.eqb_spec a b)
    end; cbn [andb orb negb implb].

Lemma streq_refl (a : jsstring) : streq a a = true.
Proof. induction a; simpl; [reflexivity | now rewrite Z.eqb_refl]. Qed.

Lemma streq_eq (a b : jsstring) : streq a b = true <-> a = b.
Proof.
  split; [| intros ->; apply streq_refl].
  revert b; induction a as [| x a IH]; intros [| y b]; simpl; try easy.
  intros H; apply andb_true_iff in H as [Hx Hab].
  apply Z.eqb_eq in Hx; subst; f_equal; auto.
Qed.

Lemma streq_neq (a b : jsstring) : a <> b -> streq a b = false.
Proof.
  intros H; destruct (streq a b) eqn:E; [| reflexivity].
  apply streq_eq in E; contradiction.
Qed.

Lemma startsWith_app (p r : jsstring) : startsWith p (p ++ r) = Some r.
Proof. induction p; simpl; [reflexivity | now rewrite Z.eqb_refl]. Qed.

Lemma startsWith_Some (p s r : jsstring) :
  startsWith p s = Some r -> s = p ++ r.
Proof.
  revert s; induction p as [| x p IH]; intros s; simpl.
  - now intros [= ->].
  - destruct s as [| y s]; [easy |].
    destruct (Z.eqb_spec x y); [| easy].
    intros H; apply IH in H; subst; reflexivity.
Qed.

Lemma includes_unfold (sub s : jsstring) :
  includes sub s
  = match startsWith sub s with
    | Some _ => true
    | None => match s with
              | [] => false
              | _ :: s' => includes sub s'
              end
    end.
Proof. destruct s; reflexivity. Qed.

Lemma includes_app (sub pre post : jsstring) :
  includes sub (pre ++ sub ++ post) = true.
Proof.
  induction pre as [| c pre IH]; rewrite includes_unfold.
  - cbn [app]; rewrite startsWith_app; reflexivity.
  - cbn [app]; destruct (startsWith sub (c :: pre ++ sub ++ post));
      [reflexivity | exact IH].
Qed.

(** ** Percent-encoding *)

Module URIFacts.
Import URI.

Lemma hexVal_hexDigit (d : Z) : 0 <= d < 16 -> hexVal (hexDigit d) = Some d.
Proof.
  intros H; unfold hexVal, hexDigit.
  destruct (Z.ltb_spec d 10); zbool; try lia; f_equal; lia.
Qed.

Lemma hexDigit_unescaped (d : Z) : 0 <= d < 16 -> unescaped (hexDigit d) = true.
Proof.
  intros H.
  assert (E : d = 0 \/ d = 1 \/ d = 2 \/ d = 3 \/ d = 4 \/ d = 5 \/ d = 6 \/
              d = 7 \/ d = 8 \/ d = 9 \/ d = 10 \/ d = 11 \/ d = 12 \/
              d = 13 \/ d = 14 \/ d = 15) by lia.
  repeat (destruct E as [-> | E]; [reflexivity |]); subst; reflexivity.
Qed.

Lemma readEscape_pct (b : Z) (t : jsstring) :
  0 <= b < 256 -> readEscape (pct b ++ t) = Some (b, t).
Proof.
  intros H; unfold pct; cbn [app readEscape]; rewrite Z.eqb_refl.
  rewrite !hexVal_hexDigit by (Z.div_mod_to_equations; lia).
  do 2 f_equal; Z.div_mod_to_equations; lia.
Qed.

Lemma pct_chars (b : Z) : 0 <= b < 256 -> Forall (fun c => uriChar c = true) (pct b).
Proof.
  intros H; unfold pct, uriChar; repeat constructor.
  - rewrite hexDigit_unescaped by (Z.div_mod_to_equations; lia); reflexivity.
  - rewrite hexDigit_unescaped by (Z.div_mod_to_equations; lia); reflexivity.
Qed.

Lemma utf8_octets (cp : Z) :
  scalar cp -> Forall (fun b => 0 <= b < 256) (utf8 cp).
Proof.
  intros [H _]; unfold utf8; zbool;
    repeat constructor; Z.div_mod_to_equations; lia.
Qed.

Lemma pctUtf8_chars (cp : Z) :
  scalar cp -> Forall (fun c => uriChar c = true) (pctUtf8 cp).
Proof.
  intros H; unfold pctUtf8.
  induction (utf8_octets cp H) as [| b l Hb _ IH]; cbn [flat_map];
    [constructor |].
  apply Forall_app; split; [apply pct_chars; assumption | exact IH].
Qed.

Lemma isCont_mod64 (x : Z) : isCont (128 + x mod 64) = true.
Proof.
  unfold isCont; pose proof (Z.mod_pos_bound x 64 eq_refl).
  apply andb_true_iff; split; [apply Z.leb_le | apply Z.ltb_lt]; lia.
Qed.

Lemma decodeAt_pctUtf8 (cp : Z) (t : jsstring) :
  scalar cp ->
  decodeAt (pctUtf8 cp ++ t)
  = Some (codeUnits cp, List.length (pctUtf8 cp)).
Proof.
  intros [H Hs]; unfold pctUtf8, utf8.
  destruct (Z.ltb_spec cp 128); [| destruct (Z.ltb_spec cp 2048);
    [| destruct (Z.ltb_spec cp 65536)]];
    cbn [flat_map]; rewrite <- ?app_assoc; cbn [app]; unfold decodeAt.
  - rewrite (readEscape_pct cp) by lia.
    unfold sequenceLength; destruct (Z.ltb_spec cp 128); [| lia].
    cbn [Nat.sub readEscapes utf8Decode].
    destruct (Z.ltb_spec cp 128); [| lia]. reflexivity.
  - rewrite (readEscape_pct (192 + cp / 64)) by (Z.div_mod_to_equations; lia).
    unfold sequenceLength.
    destruct (Z.ltb_spec (192 + cp / 64) 128); [Z.div_mod_to_equations; lia |].
    destruct (Z.ltb_spec (192 + cp / 64) 192); [Z.div_mod_to_equations; lia |].
    destruct (Z.ltb_spec (192 + cp / 64) 224); [| Z.div_mod_to_equations; lia].
    cbn [Nat.sub readEscapes].
    rewrite (readEscape_pct (128 + cp mod 64)) by (Z.div_mod_to_equations; lia).
    cbn [option_map readEscapes utf8Decode]. rewrite !isCont_mod64.
    replace ((192 + cp / 64 - 192) * 64 + (128 + cp mod 64 - 128)) with cp
      by (Z.div_mod_to_equations; lia).
    zbool; solve [reflexivity | lia].
  - rewrite (readEscape_pct (224 + cp / 4096)) by (Z.div_mod_to_equations; lia).
    unfold sequenceLength.
    destruct (Z.ltb_spec (224 + cp / 4096) 128); [Z.div_mod_to_equations; lia |].
    destruct (Z.ltb_spec (224 + cp / 4096) 192); [Z.div_mod_to_equations; lia |].
    destruct (Z.ltb_spec (224 + cp / 4096) 224); [Z.div_mod_to_equations; lia |].
    destruct (Z.ltb_spec (224 + cp / 4096) 240); [| Z.div_mod_to_equations; lia].
    cbn [Nat.sub readEscapes].
    rewrite (readEscape_pct (128 + (cp / 64) mod 64)) by (Z.div_mod_to_equations; lia).
    cbn [readEscapes].
    rewrite (readEscape_pct (128 + cp mod 64)) by (Z.div_mod_to_equations; lia).
    cbn [option_map readEscapes utf8Decode]. rewrite !isCont_mod64.
    replace ((224 + cp / 4096 - 224) * 4096 + (128 + (cp / 64) mod 64 - 128) * 64
             + (128 + cp mod 64 - 128)) with cp
      by (Z.div_mod_to_equations; lia).
    zbool; solve [reflexivity | lia].
  - rewrite (readEscape_pct (240 + cp / 262144)) by (Z.div_mod_to_equations; lia).
    unfold sequenceLength.
    destruct (Z.ltb_spec (240 + cp / 262144) 128); [Z.div_mod_to_equations; lia |].
    destruct (Z.ltb_spec (240 + cp / 262144) 192); [Z.div_mod_to_equations; lia |].
    destruct (Z.ltb_spec (240 + cp / 262144) 224); [Z.div_mod_to_equations; lia |].
    destruct (Z.ltb_spec (240 + cp / 262144) 240); [Z.div_mod_to_equations; lia |].
    destruct (Z.ltb_spec (240 + cp / 262144) 248); [| Z.div_mod_to_equations; lia].
    cbn [Nat.sub readEscapes].
    rewrite (readEscape_pct (128 + (cp / 4096) mod 64)) by (Z.div_mod_to_equations; lia).
    cbn [readEscapes].
    rewrite (readEscape_pct (128 + (cp / 64) mod 64)) by (Z.div_mod_to_equations; lia).
    cbn [readEscapes].
    rewrite (readEscape_pct (128 + cp mod 64)) by (Z.div_mod_to_equations; lia).
    cbn [option_map readEscapes utf8Decode]. rewrite !isCont_mod64.
    replace ((240 + cp / 262144 - 240) * 262144
             + (128 + (cp / 4096) mod 64 - 128) * 4096
             + (128 + (cp / 64) mod 64 - 128) * 64
             + (128 + cp mod 64 - 128)) with cp
      by (Z.div_mod_to_equations; lia).
    zbool; solve [reflexivity | lia].
Qed.

Lemma decodeFrom_skip (l t : jsstring) :
  decodeFrom (List.length l) (l ++ t) = decodeFrom 0 t.
Proof.
  induction l as [| c l IH]; cbn [List.length app].
  - destruct t; reflexivity.
  - exact IH.
Qed.

Lemma unescaped_not_pct (c : Z) : unescaped c = true -> (c =? 37) = false.
Proof.
  intros H; destruct (Z.eqb_spec c 37) as [-> |]; [discriminate H | reflexivity].
Qed.

Lemma decodeFrom_plain (c : Z) (t : jsstring) :
  (c =? 37) = false ->
  decodeFrom 0 (c :: t) = option_map (cons c) (decodeFrom 0 t).
Proof. intros H; cbn [decodeFrom]; rewrite H; reflexivity. Qed.

Lemma pctUtf8_head (cp : Z) : exists r, pctUtf8 cp = 37 :: r /\ (List.length r = List.length (pctUtf8 cp) - 1)%nat.
Proof.
  unfold pctUtf8, utf8; zbool; cbn [flat_map pct app]; eexists; split; try reflexivity; cbn [List.length]; lia.
Qed.

Lemma decodeFrom_pctUtf8 (cp : Z) (t : jsstring) :
  scalar cp ->
  decodeFrom 0 (pctUtf8 cp ++ t) = option_map (app (codeUnits cp)) (decodeFrom 0 t).
Proof.
  intros H.
  destruct (pctUtf8_head cp) as (r & Hr & Hlen).
  pose proof (decodeAt_pctUtf8 cp t H) as HA.
  rewrite Hr in *. cbn [app decodeFrom]. rewrite Z.eqb_refl.
  cbn [app] in HA. rewrite HA.
  replace (List.length (37%Z :: r) - 1)%nat with (List.length r) by (cbn [List.length]; lia).
  rewrite decodeFrom_skip. reflexivity.
Qed.

Lemma codeUnits_bmp (c : Z) : c < 65536 -> codeUnits c = [c].
Proof. intros H; unfold codeUnits; zbool; [reflexivity | lia]. Qed.

Lemma codeUnits_pair (hi lo : Z) :
  isLead hi = true -> isTrail lo = true ->
  codeUnits (pairCodePoint hi lo) = [hi; lo].
Proof.
  unfold isLead, isTrail, codeUnits, pairCodePoint; intros H1 H2.
  apply andb_true_iff in H1 as [? ?], H2 as [? ?].
  destruct (Z.ltb_spec ((hi - 55296) * 1024 + (lo - 56320) + 65536) 65536); [lia |].
  f_equal; [| f_equal]; Z.div_mod_to_equations; lia.
Qed.

Lemma pair_scalar (hi lo : Z) :
  isLead hi = true -> isTrail lo = true -> scalar (pairCodePoint hi lo).
Proof.
  unfold isLead, isTrail, scalar, pairCodePoint; intros H1 H2.
  apply andb_true_iff in H1 as [? ?], H2 as [? ?]. lia.
Qed.

(** Decoding undoes encoding. *)
Lemma decode_encode (v ev : jsstring) :
  encodeURIComponent v = Some ev -> decodeURIComponent ev = Some v.
Proof.
  unfold decodeURIComponent.
  remember (List.length v) as n eqn:Hn.
  revert v ev Hn; induction n as [n IH] using lt_wf_ind; intros v ev Hn.
  destruct v as [| c rest]; cbn [encodeURIComponent].
  - intros [= <-]; reflexivity.
  - destruct (unescaped c) eqn:Hu.
    + destruct (encodeURIComponent rest) as [er |] eqn:Er; [| discriminate].
      intros [= <-]. rewrite decodeFrom_plain by (apply unescaped_not_pct; assumption).
      rewrite (IH (List.length rest)) with (v := rest) (ev := er); cbn [List.length] in *; try lia; auto.
    + destruct (isLead c) eqn:Hl.
      * destruct rest as [| d rest']; [discriminate |].
        destruct (isTrail d) eqn:Ht; [| discriminate].
        destruct (encodeURIComponent rest') as [er |] eqn:Er; [| discriminate].
        intros [= <-]. rewrite decodeFrom_pctUtf8 by (apply pair_scalar; assumption).
        rewrite (IH (List.length rest')) with (v := rest') (ev := er); cbn [List.length] in *; try lia; auto.
        cbn [option_map]. rewrite codeUnits_pair by assumption. reflexivity.
      * destruct (isTrail c) eqn:Ht; [discriminate |].
        destruct ((0 <=? c) && (c <? 65536)) eqn:Hr; [| discriminate].
        destruct (encodeURIComponent rest) as [er |] eqn:Er; [| discriminate].
        intros [= <-].
        apply andb_true_iff in Hr as [H0 H1]. apply Z.leb_le in H0. apply Z.ltb_lt in H1.
        assert (scalar c).
        { unfold scalar, isLead, isTrail in *. split; [lia |].
          revert Hl Ht; zbool; intros; try discriminate; lia. }
        rewrite decodeFrom_pctUtf8 by assumption.
        rewrite (IH (List.length rest)) with (v := rest) (ev := er); cbn [List.length] in *; try lia; auto.
        cbn [option_map]. rewrite codeUnits_bmp by lia. reflexivity.
Qed.

Lemma encode_inj (a b e : jsstring) :
  encodeURIComponent a = Some e -> encodeURIComponent b = Some e -> a = b.
Proof.
  intros Ha Hb; apply decode_encode in Ha, Hb; congruence.
Qed.

Lemma encode_chars (v ev : jsstring) :
  encodeURIComponent v = Some ev -> Forall (fun c => uriChar c = true) ev.
Proof.
  remember (List.length v) as n eqn:Hn.
  revert v ev Hn; induction n as [n IH] using lt_wf_ind; intros v ev Hn.
  destruct v as [| c rest]; cbn [encodeURIComponent].
  - intros [= <-]; constructor.
  - destruct (unescaped c) eqn:Hu.
    + destruct (encodeURIComponent rest) as [er |] eqn:Er; [| discriminate].
      intros [= <-]; constructor.
      * unfold uriChar; rewrite Hu; reflexivity.
      * apply (IH (List.length rest)) with (v := rest);
          cbn [List.length] in *; try lia; auto.
    + destruct (isLead c) eqn:Hl.
      * destruct rest as [| d rest']; [discriminate |].
        destruct (isTrail d) eqn:Ht; [| discriminate].
        destruct (encodeURIComponent rest') as [er |] eqn:Er; [| discriminate].
        intros [= <-]; apply Forall_app; split.
        -- apply pctUtf8_chars, pair_scalar; assumption.
        -- apply (IH (List.length rest')) with (v := rest');
             cbn [List.length] in *; try lia; auto.
      * destruct (isTrail c) eqn:Ht; [discriminate |].
        destruct ((0 <=? c) && (c <? 65536)) eqn:Hr; [| discriminate].
        destruct (encodeURIComponent rest) as [er |] eqn:Er; [| discriminate].
        intros [= <-].
        apply andb_true_iff in Hr as [H0 H1].
        apply Z.leb_le in H0; apply Z.ltb_lt in H1.
        apply Forall_app; split.
        -- apply pctUtf8_chars. unfold scalar, isLead, isTrail in *.
           split; [lia |]. revert Hl Ht; zbool; intros; try discriminate; lia.
        -- apply (IH (List.length rest)) with (v := rest);
             cbn [List.length] in *; try lia; auto.
Qed.

Lemma encode_nil (v : jsstring) :
  encodeURIComponent v = Some [] -> v = [].
Proof.
  intros H; apply decode_encode in H; cbv in H; congruence.
Qed.

End URIFacts.

(** Case analysis on integer comparisons, one at a time; a branch whose
    hypotheses contradict each other is closed at once. *)
Ltac zdec :=
  repeat (match goal with
          | |- context [Z.eqb ?a ?b] => destruct (Z.eqb_spec a b); try lia
          | |- context [Z.leb ?a ?b] => destruct (Z.leb_spec a b); try lia
          | |- context [Z.ltb ?a ?b] => destruct (Z.ltb_spec a b); try lia
          end; cbn [andb orb negb]).

(** ** The name matcher *)

Module RegExpFacts.
Import URI URIFacts RegExp.

Lemma uriChar_bound (c : Z) : uriChar c = true -> 33 <= c <= 126.
Proof.
  unfold uriChar, unescaped; intros H.
  repeat match type of H with
    | (_ || _) = true => apply orb_true_iff in H; destruct H as [H | H]
    end;
  repeat match goal with
    | H : (_ && _) = true |- _ => apply andb_true_iff in H; destruct H
    | H : (_ <=? _) = true |- _ => apply Z.leb_le in H
    | H : (_ =? _) = true |- _ => apply Z.eqb_eq in H
    end; lia.
Qed.

Lemma uriChar_token (s : jsstring) :
  Forall (fun c => uriChar c = true) s -> token s.
Proof.
  intros H; induction H as [| c s Hc _ IH]; constructor; [| exact IH].
  repeat split;
    try (match goal with
         | |- (c =? ?k) = false =>
             destruct (Z.eqb_spec c k) as [-> |]; [discriminate Hc | reflexivity]
         end).
  apply uriChar_bound in Hc; unfold isWhiteSpace; zdec; reflexivity.
Qed.

Lemma token_plain (s : jsstring) : token s -> plain s.
Proof.
  intros H; induction H as [| c s (H1 & H2 & H3 & H4) _ IH]; constructor;
    [| exact IH].
  split; [assumption |].
  revert H4; unfold isWhiteSpace, isLineTerminator; zdec; intros; try discriminate;
    reflexivity.
Qed.

Lemma encode_token (v ev : jsstring) :
  encodeURIComponent v = Some ev -> token ev.
Proof. intros H; apply uriChar_token, (encode_chars v); assumption. Qed.

(** The pattern reads the escaped name as the name itself. *)
Lemma readLiteral_escapeName (name : jsstring) :
  Forall (fun c => (c =? 92) = false) name ->
  readLiteral (escapeName name) = Some name.
Proof.
  intros H; induction H as [| c s Hc _ IH]; [reflexivity |].
  cbn [escapeName]; destruct (special c) eqn:Hs; cbn [readLiteral].
  - rewrite Hs, IH; reflexivity.
  - rewrite Hc.
    assert (Hy : syntaxChar c = false).
    { revert Hs Hc; unfold special, syntaxChar; zdec; intros; try discriminate;
        reflexivity. }
    rewrite Hy, IH; reflexivity.
Qed.

Lemma getCookieRegExp_token (name : jsstring) :
  token name -> getCookieRegExp name = Some {| literal := name |}.
Proof.
  intros H; unfold getCookieRegExp; rewrite readLiteral_escapeName; [reflexivity |].
  eapply Forall_impl; [| exact H]; cbv beta; tauto.
Qed.

Lemma matchValue_plain (v rest : jsstring) :
  plain v -> matchValue (v ++ 59 :: rest) = Some v.
Proof.
  intros H; induction H as [| c s [H1 H2] _ IH]; [reflexivity |].
  cbn [app matchValue]; rewrite H1, H2, IH; reflexivity.
Qed.

Lemma matchValue_plain_end (v : jsstring) : plain v -> matchValue v = Some v.
Proof.
  intros H; induction H as [| c s [H1 H2] _ IH]; [reflexivity |].
  cbn [matchValue]; rewrite H1, H2, IH; reflexivity.
Qed.

Lemma matchName_here (name v rest : jsstring) :
  plain v -> matchName name (name ++ 61 :: v ++ 59 :: rest) = Some v.
Proof.
  intros H; unfold matchName; rewrite startsWith_app, Z.eqb_refl.
  apply matchValue_plain; assumption.
Qed.

Lemma search_head (name v rest : jsstring) :
  plain v -> search true name (name ++ 61 :: v ++ 59 :: rest) = Some v.
Proof.
  intros H.
  assert (E : matchHere true name (name ++ 61 :: v ++ 59 :: rest) = Some v)
    by (unfold matchHere; rewrite matchName_here by assumption; reflexivity).
  destruct (name ++ 61 :: v ++ 59 :: rest); cbn [search]; rewrite E; reflexivity.
Qed.

(** A match holds the name verbatim, followed by [=]. *)
Lemma matchName_occurs (name s v : jsstring) :
  matchName name s = Some v -> exists post, s = name ++ 61 :: post.
Proof.
  unfold matchName; destruct (startsWith name s) as [[| c r] |] eqn:E; try easy.
  destruct (Z.eqb_spec c 61) as [-> |]; [| easy].
  intros _; exists r; apply startsWith_Some; assumption.
Qed.

Lemma matchSpaces_occurs (name s v : jsstring) :
  matchSpaces name s = Some v ->
  exists pre post, s = pre ++ name ++ 61 :: post.
Proof.
  revert v; induction s as [| c s IH]; intros v; cbn [matchSpaces].
  - intros H; apply matchName_occurs in H as [post ->]; exists [], post; reflexivity.
  - destruct (isWhiteSpace c).
    + destruct (matchSpaces name s) as [v' |].
      * intros _; destruct (IH v' eq_refl) as (pre & post & ->).
        exists (c :: pre), post; reflexivity.
      * intros H; apply matchName_occurs in H as [post ->];
          exists [], post; reflexivity.
    + intros H; apply matchName_occurs in H as [post ->];
        exists [], post; reflexivity.
Qed.

Lemma matchHere_occurs (atStart : bool) (name s v : jsstring) :
  matchHere atStart name s = Some v ->
  exists pre post, s = pre ++ name ++ 61 :: post.
Proof.
  unfold matchHere.
  destruct (if atStart then matchName name s else None) as [v' |] eqn:E.
  - intros _; destruct atStart; [| discriminate].
    apply matchName_occurs in E as [post ->]; exists [], post; reflexivity.
  - destruct s as [| c s]; [discriminate |].
    destruct (c =? 59); [| discriminate].
    intros H; apply matchSpaces_occurs in H as (pre & post & ->).
    exists (c :: pre), post; reflexivity.
Qed.

Lemma search_occurs (atStart : bool) (name s v : jsstring) :
  search atStart name s = Some v ->
  exists pre post, s = pre ++ name ++ 61 :: post.
Proof.
  revert atStart v; induction s as [| c s IH]; intros atStart v; cbn [search].
  - destruct (matchHere atStart name []) eqn:E; [| discriminate].
    intros _; eapply matchHere_occurs; eassumption.
  - destruct (matchHere atStart name (c :: s)) eqn:E.
    + intros _; eapply matchHere_occurs; eassumption.
    + intros H; apply IH in H as (pre & post & ->).
      exists (c :: pre), post; reflexivity.
Qed.

End RegExpFacts.

(** ** Reading one cookie *)

Module ParserFacts.
Import URI URIFacts RegExp RegExpFacts.

Lemma checkIn_encoded (cookieString name encodedName : jsstring) :
  encodeURIComponent name = Some encodedName ->
  checkIn cookieString name
  = Normal (RegExp.test {| literal := encodedName |} cookieString).
Proof.
  intros H; unfold checkIn; rewrite H.
  rewrite getCookieRegExp_token by (eapply encode_token; eassumption).
  reflexivity.
Qed.

Lemma getIn_encoded (cookieString name encodedName : jsstring) :
  encodeURIComponent name = Some encodedName ->
  getIn cookieString name
  = Normal match search true encodedName cookieString with
           | None | Some [] => []
           | Some capture => safeDecodeURIComponent capture
           end.
Proof.
  intros H; unfold getIn; rewrite (checkIn_encoded _ _ _ H).
  cbn [bindC]; unfold test, exec; cbn [literal].
  destruct (search true encodedName cookieString) as [[| c r] |] eqn:E;
    try reflexivity;
    rewrite H, getCookieRegExp_token by (eapply encode_token; eassumption);
    unfold exec; cbn [literal]; rewrite E; reflexivity.
Qed.

Lemma safeDecode_encoded (v ev : jsstring) :
  encodeURIComponent v = Some ev -> safeDecodeURIComponent ev = v.
Proof.
  intros H; unfold safeDecodeURIComponent; rewrite (decode_encode _ _ H); reflexivity.
Qed.

Lemma cookieStringOf_noOptions (now : Z) (name value en ev : jsstring) :
  encodeURIComponent name = Some en -> encodeURIComponent value = Some ev ->
  cookieStringOf now name value noOptions
  = Normal (en ++ 61 :: ev ++ 59 :: lit "sameSite=Lax;", []).
Proof. intros Hn Hv; unfold cookieStringOf; rewrite Hn, Hv; reflexivity. Qed.

(** C7: for every name and value, when the builder returns a cookie string
    for them with no attributes, [get] of that name on that string returns
    the value.  (The builder returns a string exactly when both can be
    percent-encoded, and an encoded component holds no [;] and no [=]:
    [encode_token].) *)
Theorem get_of_built_cookie (now : Z) (name value cookieString : jsstring)
    (warnings : list jsstring) :
  cookieStringOf now name value noOptions = Normal (cookieString, warnings) ->
  getIn cookieString name = Normal value.
Proof.
  unfold cookieStringOf.
  destruct (encodeURIComponent name) as [en |] eqn:Hn; [| discriminate].
  destruct (encodeURIComponent value) as [ev |] eqn:Hv; [| discriminate].
  intros [= <- _]. rewrite (getIn_encoded _ _ _ Hn).
  change (lit "=" ++ ev ++ lit ";" ++ ?r) with (61 :: ev ++ 59 :: r).
  rewrite search_head by (apply token_plain; eapply encode_token; eassumption).
  f_equal. destruct ev as [| c r].
  - symmetry; apply encode_nil; assumption.
  - apply safeDecode_encoded; assumption.
Qed.

Lemma get_of_built_cookie_witness :
  getIn (lit "user%20id=a%3Db%3B%20c;sameSite=Lax;") (lit "user id")
  = Normal (lit "a=b; c").
Proof.
  apply (get_of_built_cookie 0 (lit "user id") (lit "a=b; c") _ []).
  reflexivity.
Defined.

End ParserFacts.

(** ** The value decoder *)

Module DecoderFacts.
Import URI URIFacts.

Lemma hexVal_of (d c : Z) : hexDigitOf d c -> hexVal c = Some d.
Proof.
  unfold hexDigitOf, hexVal; intros [[H ->] | [H [-> | ->]]]; zdec; f_equal; lia.
Qed.

Lemma hexVal_digit (c d : Z) : hexVal c = Some d -> hexDigitOf d c.
Proof.
  unfold hexDigitOf, hexVal; zdec; intros [= <-]; lia.
Qed.

Lemma hexDigitOf_range (d c : Z) : hexDigitOf d c -> 0 <= d < 16 /\ c <> 37.
Proof. unfold hexDigitOf; lia. Qed.

Lemma readEscape_escape (hi lo h1 h2 : Z) (t : jsstring) :
  hexDigitOf hi h1 -> hexDigitOf lo h2 ->
  readEscape (37 :: h1 :: h2 :: t) = Some (16 * hi + lo, t).
Proof.
  intros A B; cbn [readEscape]; rewrite Z.eqb_refl, (hexVal_of _ _ A), (hexVal_of _ _ B).
  reflexivity.
Qed.

Lemma readEscape_sound (s : jsstring) (b : Z) (t : jsstring) :
  readEscape s = Some (b, t) ->
  exists hi lo h1 h2,
    s = 37 :: h1 :: h2 :: t /\ hexDigitOf hi h1 /\ hexDigitOf lo h2 /\
    b = 16 * hi + lo.
Proof.
  destruct s as [| p [| h1 [| h2 r]]]; cbn [readEscape]; try discriminate.
  destruct (Z.eqb_spec p 37) as [-> |]; [| discriminate].
  destruct (hexVal h1) as [a |] eqn:A; [| discriminate].
  destruct (hexVal h2) as [c |] eqn:C; [| discriminate].
  intros [= <- <-]; exists a, c, h1, h2; repeat split; auto using hexVal_digit.
Qed.

Lemma Escaped_length (octets : list Z) (e : jsstring) :
  Escaped octets e -> List.length e = (3 * List.length octets)%nat.
Proof. induction 1; cbn [List.length]; lia. Qed.

Lemma readEscapes_escaped (octets : list Z) (e t : jsstring) :
  Escaped octets e ->
  readEscapes (List.length octets) (e ++ t) = Some octets.
Proof.
  induction 1 as [| hi lo h1 h2 octets e A B _ IH]; [reflexivity |].
  cbn [List.length readEscapes app]; rewrite (readEscape_escape _ _ _ _ _ A B), IH.
  reflexivity.
Qed.

Lemma readEscapes_sound (n : nat) (s : jsstring) (octets : list Z) :
  readEscapes n s = Some octets ->
  exists e t, s = e ++ t /\ Escaped octets e /\ List.length octets = n.
Proof.
  revert s octets; induction n as [| n IH]; intros s octets; cbn [readEscapes].
  - intros [= <-]; exists [], s; repeat split; constructor.
  - destruct (readEscape s) as [[b r] |] eqn:R; [| discriminate].
    destruct (readEscapes n r) as [more |] eqn:M; [| discriminate].
    intros [= <-].
    apply readEscape_sound in R as (hi & lo & h1 & h2 & -> & A & B & ->).
    destruct (IH _ _ M) as (e & t & -> & E & L).
    exists (37 :: h1 :: h2 :: e), t; repeat split.
    + constructor; assumption.
    + cbn [List.length]; lia.
Qed.

Lemma utf8_lead (cp : Z) :
  scalar cp ->
  exists b more,
    utf8 cp = b :: more /\ sequenceLength b = Some (S (List.length more)).
Proof.
  intros [H _]; unfold utf8.
  destruct (Z.ltb_spec cp 128); [| destruct (Z.ltb_spec cp 2048);
    [| destruct (Z.ltb_spec cp 65536)]];
    eexists; eexists; (split; [reflexivity |]); unfold sequenceLength;
    cbn [List.length].
  - destruct (Z.ltb_spec cp 128); [reflexivity | lia].
  - assert (0 <= cp / 64 - 2 < 30) by (Z.div_mod_to_equations; lia).
    zdec; reflexivity.
  - assert (0 <= cp / 4096 < 16) by (Z.div_mod_to_equations; lia).
    zdec; reflexivity.
  - assert (0 <= cp / 262144 < 5) by (Z.div_mod_to_equations; lia).
    zdec; reflexivity.
Qed.

Lemma utf8Decode_utf8 (cp : Z) : scalar cp -> utf8Decode (utf8 cp) = Some cp.
Proof.
  intros [H Hs]; unfold utf8.
  destruct (Z.ltb_spec cp 128); [| destruct (Z.ltb_spec cp 2048);
    [| destruct (Z.ltb_spec cp 65536)]]; cbn [utf8Decode].
  - destruct (Z.ltb_spec cp 128); [reflexivity | lia].
  - rewrite !isCont_mod64.
    replace ((192 + cp / 64 - 192) * 64 + (128 + cp mod 64 - 128)) with cp
      by (Z.div_mod_to_equations; lia).
    zdec; reflexivity.
  - rewrite !isCont_mod64.
    replace ((224 + cp / 4096 - 224) * 4096 + (128 + (cp / 64) mod 64 - 128) * 64
             + (128 + cp mod 64 - 128)) with cp
      by (Z.div_mod_to_equations; lia).
    zdec; reflexivity.
  - rewrite !isCont_mod64.
    replace ((240 + cp / 262144 - 240) * 262144
             + (128 + (cp / 4096) mod 64 - 128) * 4096
             + (128 + (cp / 64) mod 64 - 128) * 64
             + (128 + cp mod 64 - 128)) with cp
      by (Z.div_mod_to_equations; lia).
    zdec; reflexivity.
Qed.

Lemma isCont_range (b : Z) : isCont b = true -> 128 <= b < 192.
Proof.
  unfold isCont; intros H; apply andb_true_iff in H as [A B].
  apply Z.leb_le in A; apply Z.ltb_lt in B; lia.
Qed.

Lemma sequenceLength_range (b : Z) (n : nat) :
  sequenceLength b = Some n ->
  (n = 1%nat /\ b < 128) \/ (n = 2%nat /\ 192 <= b < 224) \/
  (n = 3%nat /\ 224 <= b < 240) \/ (n = 4%nat /\ 240 <= b < 248).
Proof.
  unfold sequenceLength.
  destruct (Z.ltb_spec b 128); [intros [= <-]; lia |].
  destruct (Z.ltb_spec b 192); [discriminate |].
  destruct (Z.ltb_spec b 224); [intros [= <-]; lia |].
  destruct (Z.ltb_spec b 240); [intros [= <-]; lia |].
  destruct (Z.ltb_spec b 248); [intros [= <-]; lia | discriminate].
Qed.

Lemma utf8_two (b0 b1 : Z) :
  192 <= b0 < 224 -> 128 <= b1 < 192 ->
  128 <= (b0 - 192) * 64 + (b1 - 128) ->
  utf8 ((b0 - 192) * 64 + (b1 - 128)) = [b0; b1].
Proof.
  intros H0 H1 H; unfold utf8.
  destruct (Z.ltb_spec ((b0 - 192) * 64 + (b1 - 128)) 128); [lia |].
  destruct (Z.ltb_spec ((b0 - 192) * 64 + (b1 - 128)) 2048); [| lia].
  f_equal; [| f_equal]; Z.div_mod_to_equations; lia.
Qed.

Lemma utf8_three (b0 b1 b2 : Z) :
  224 <= b0 < 240 -> 128 <= b1 < 192 -> 128 <= b2 < 192 ->
  2048 <= (b0 - 224) * 4096 + (b1 - 128) * 64 + (b2 - 128) ->
  utf8 ((b0 - 224) * 4096 + (b1 - 128) * 64 + (b2 - 128)) = [b0; b1; b2].
Proof.
  intros H0 H1 H2 H; unfold utf8.
  set (cp := (b0 - 224) * 4096 + (b1 - 128) * 64 + (b2 - 128)) in *.
  destruct (Z.ltb_spec cp 128); [lia |].
  destruct (Z.ltb_spec cp 2048); [lia |].
  destruct (Z.ltb_spec cp 65536); [| lia].
  assert (E2 : cp mod 64 = b2 - 128).
  { symmetry; apply (Z.mod_unique cp 64 ((b0 - 224) * 64 + (b1 - 128))); lia. }
  assert (D2 : cp / 64 = (b0 - 224) * 64 + (b1 - 128)).
  { symmetry; apply (Z.div_unique cp 64 _ (b2 - 128)); lia. }
  assert (E1 : (cp / 64) mod 64 = b1 - 128).
  { rewrite D2; symmetry; apply (Z.mod_unique _ 64 (b0 - 224)); lia. }
  assert (D1 : cp / 4096 = b0 - 224).
  { symmetry; apply (Z.div_unique cp 4096 _ ((b1 - 128) * 64 + (b2 - 128))); lia. }
  rewrite E2, E1, D1; f_equal; [lia | f_equal; [lia | f_equal; lia]].
Qed.

Lemma utf8_four (b0 b1 b2 b3 : Z) :
  240 <= b0 < 248 -> 128 <= b1 < 192 -> 128 <= b2 < 192 -> 128 <= b3 < 192 ->
  65536 <= (b0 - 240) * 262144 + (b1 - 128) * 4096 + (b2 - 128) * 64 + (b3 - 128) ->
  utf8 ((b0 - 240) * 262144 + (b1 - 128) * 4096 + (b2 - 128) * 64 + (b3 - 128))
  = [b0; b1; b2; b3].
Proof.
  intros H0 H1 H2 H3 H; unfold utf8.
  set (cp := (b0 - 240) * 262144 + (b1 - 128) * 4096 + (b2 - 128) * 64 + (b3 - 128)) in *.
  destruct (Z.ltb_spec cp 128); [lia |].
  destruct (Z.ltb_spec cp 2048); [lia |].
  destruct (Z.ltb_spec cp 65536); [lia |].
  assert (E3 : cp mod 64 = b3 - 128).
  { symmetry;
      apply (Z.mod_unique cp 64 ((b0 - 240) * 4096 + (b1 - 128) * 64 + (b2 - 128)));
      lia. }
  assert (D3 : cp / 64 = (b0 - 240) * 4096 + (b1 - 128) * 64 + (b2 - 128)).
  { symmetry; apply (Z.div_unique cp 64 _ (b3 - 128)); lia. }
  assert (E2 : (cp / 64) mod 64 = b2 - 128).
  { rewrite D3; symmetry;
      apply (Z.mod_unique _ 64 ((b0 - 240) * 64 + (b1 - 128))); lia. }
  assert (D2 : cp / 4096 = (b0 - 240) * 64 + (b1 - 128)).
  { symmetry;
      apply (Z.div_unique cp 4096 _ ((b2 - 128) * 64 + (b3 - 128))); lia. }
  assert (E1 : (cp / 4096) mod 64 = b1 - 128).
  { rewrite D2; symmetry; apply (Z.mod_unique _ 64 (b0 - 240)); lia. }
  assert (D1 : cp / 262144 = b0 - 240).
  { symmetry;
      apply (Z.div_unique cp 262144 _
               ((b1 - 128) * 4096 + (b2 - 128) * 64 + (b3 - 128))); lia. }
  rewrite E3, E2, E1, D1.
  f_equal; [lia | f_equal; [lia | f_equal; [lia | f_equal; lia]]].
Qed.

(** A sequence that [utf8Decode] accepts is the UTF-8 form of its code
    point. *)
Lemma utf8_of_decode (b : Z) (more : list Z) (cp : Z) :
  0 <= b ->
  sequenceLength b = Some (S (List.length more)) ->
  utf8Decode (b :: more) = Some cp ->
  scalar cp /\ utf8 cp = b :: more.
Proof.
  intros Hb Hn; apply sequenceLength_range in Hn.
  destruct more as [| b1 [| b2 [| b3 [| b4 more]]]]; cbn [List.length] in Hn;
    cbn [utf8Decode].
  - destruct Hn as [[_ H] | [[E _] | [[E _] | [E _]]]]; try discriminate E.
    destruct (Z.ltb_spec b 128); [| lia].
    intros [= <-]; split; [unfold scalar; lia |].
    unfold utf8; destruct (Z.ltb_spec b 128); [reflexivity | lia].
  - destruct Hn as [[E _] | [[_ H] | [[E _] | [E _]]]]; try discriminate E.
    destruct (isCont b1) eqn:C1; [| discriminate].
    apply isCont_range in C1; cbn [andb].
    destruct (Z.leb_spec 128 ((b - 192) * 64 + (b1 - 128))); [| discriminate].
    intros [= <-]; split; [unfold scalar; lia | apply utf8_two; assumption].
  - destruct Hn as [[E _] | [[E _] | [[_ H] | [E _]]]]; try discriminate E.
    destruct (isCont b1) eqn:C1; [| discriminate].
    destruct (isCont b2) eqn:C2; [| discriminate].
    apply isCont_range in C1, C2; cbn [andb].
    set (cp' := (b - 224) * 4096 + (b1 - 128) * 64 + (b2 - 128)).
    destruct (Z.leb_spec 2048 cp'); [| discriminate]; cbn [andb].
    destruct (Z.leb_spec 55296 cp'); cbn [andb negb].
    + destruct (Z.leb_spec cp' 57343); [discriminate |]; cbn [negb].
      intros [= <-]; split; [unfold scalar, cp' in *; lia |].
      apply utf8_three; assumption.
    + intros [= <-]; split; [unfold scalar, cp' in *; lia |].
      apply utf8_three; assumption.
  - destruct Hn as [[E _] | [[E _] | [[E _] | [_ H]]]]; try discriminate E.
    destruct (isCont b1) eqn:C1; [| discriminate].
    destruct (isCont b2) eqn:C2; [| discriminate].
    destruct (isCont b3) eqn:C3; [| discriminate].
    apply isCont_range in C1, C2, C3; cbn [andb].
    set (cp' := (b - 240) * 262144 + (b1 - 128) * 4096 + (b2 - 128) * 64
                + (b3 - 128)).
    destruct (Z.leb_spec 65536 cp'); [| discriminate]; cbn [andb].
    destruct (Z.leb_spec cp' 1114111); [| discriminate].
    intros [= <-]; split; [unfold scalar, cp' in *; lia |].
    apply utf8_four; assumption.
  - destruct Hn as [[E _] | [[E _] | [[E _] | [E _]]]]; discriminate E.
Qed.

Lemma Escaped_inv (b : Z) (more : list Z) (e : jsstring) :
  Escaped (b :: more) e ->
  exists hi lo h1 h2 e',
    e = 37 :: h1 :: h2 :: e' /\ b = 16 * hi + lo /\
    hexDigitOf hi h1 /\ hexDigitOf lo h2 /\ Escaped more e'.
Proof.
  intros H; remember (b :: more) as octets eqn:Ho.
  destruct H as [| hi lo h1 h2 octets e' A B E']; [discriminate Ho |].
  injection Ho as Hb Hm; subst octets.
  exists hi, lo, h1, h2, e'; repeat split; auto.
Qed.

(** One escape sequence of the scan, forwards and backwards. *)
Lemma decodeAt_escaped (cp : Z) (e t : jsstring) :
  scalar cp -> Escaped (utf8 cp) e ->
  decodeAt (e ++ t) = Some (codeUnits cp, List.length e).
Proof.
  intros Hs He.
  destruct (utf8_lead cp Hs) as (b & more & Hu & Hn).
  pose proof (utf8Decode_utf8 cp Hs) as Hd.
  pose proof (Escaped_length _ _ He) as Hl.
  rewrite Hu in He, Hd, Hl.
  destruct (Escaped_inv _ _ _ He) as (hi & lo & h1 & h2 & e' & -> & Eb & A & B & E').
  unfold decodeAt; cbn [app]; rewrite (readEscape_escape _ _ _ _ _ A B), <- Eb, Hn.
  cbn [Nat.sub]; rewrite Nat.sub_0_r, (readEscapes_escaped _ _ _ E'), Hd.
  do 2 f_equal; rewrite Hl; cbn [List.length]; reflexivity.
Qed.

Lemma decodeAt_sound (s units : jsstring) (n : nat) :
  decodeAt s = Some (units, n) ->
  exists cp e t,
    s = e ++ t /\ scalar cp /\ Escaped (utf8 cp) e /\
    units = codeUnits cp /\ List.length e = n.
Proof.
  unfold decodeAt.
  destruct (readEscape s) as [[b r] |] eqn:R; [| discriminate].
  destruct (sequenceLength b) as [k |] eqn:K; [| discriminate].
  destruct (readEscapes (k - 1) r) as [more |] eqn:M; [| discriminate].
  destruct (utf8Decode (b :: more)) as [cp |] eqn:D; [| discriminate].
  intros [= <- <-].
  apply readEscape_sound in R as (hi & lo & h1 & h2 & -> & A & B & ->).
  apply readEscapes_sound in M as (e & t & -> & E & L).
  assert (Hk : k = S (List.length more)).
  { apply sequenceLength_range in K; lia. }
  subst k.
  assert (Hb : 0 <= 16 * hi + lo).
  { pose proof (hexDigitOf_range _ _ A); pose proof (hexDigitOf_range _ _ B); lia. }
  destruct (utf8_of_decode _ _ _ Hb K D) as [Hs Hu].
  exists cp, (37 :: h1 :: h2 :: e), t.
  split; [reflexivity |]; split; [exact Hs |]; split; [| split; [reflexivity |]].
  - rewrite Hu; constructor; assumption.
  - cbn [List.length]; rewrite (Escaped_length _ _ E); lia.
Qed.

Lemma Escaped_head (b : Z) (more : list Z) (e : jsstring) :
  Escaped (b :: more) e ->
  exists r, e = 37 :: r /\ List.length r = (List.length e - 1)%nat.
Proof.
  inversion 1; subst; eexists; split; [reflexivity |].
  cbn [List.length]; lia.
Qed.

Lemma decodeFrom_escaped (cp : Z) (e t : jsstring) :
  scalar cp -> Escaped (utf8 cp) e ->
  decodeFrom 0 (e ++ t) = option_map (app (codeUnits cp)) (decodeFrom 0 t).
Proof.
  intros Hs He.
  pose proof (decodeAt_escaped cp e t Hs He) as HA.
  destruct (utf8_lead cp Hs) as (b & more & Hu & _).
  rewrite Hu in He; destruct (Escaped_head _ _ _ He) as (r & -> & Hl).
  cbn [app decodeFrom]; rewrite Z.eqb_refl.
  cbn [app] in HA; rewrite HA, <- Hl, decodeFrom_skip; reflexivity.
Qed.

(** The scan of [decodeURIComponent] finds exactly the percent-decoding. *)
Lemma decode_complete (s d : jsstring) :
  PercentDecoded s d -> decodeURIComponent s = Some d.
Proof.
  unfold decodeURIComponent.
  induction 1 as [| c s d Hc _ IH | cp e s d Hs Hb He _ IH
                  | hi lo e s d Hh Hl He _ IH].
  - reflexivity.
  - rewrite decodeFrom_plain, IH by (apply Z.eqb_neq; assumption); reflexivity.
  - rewrite (decodeFrom_escaped cp) by assumption.
    rewrite IH, codeUnits_bmp by assumption; reflexivity.
  - rewrite (decodeFrom_escaped (pairCodePoint hi lo))
      by (try apply pair_scalar; assumption).
    rewrite IH, codeUnits_pair by assumption; reflexivity.
Qed.

Lemma codeUnits_supplementary (cp : Z) :
  scalar cp -> 65536 <= cp ->
  exists hi lo,
    isLead hi = true /\ isTrail lo = true /\ pairCodePoint hi lo = cp /\
    codeUnits cp = [hi; lo].
Proof.
  intros [H _] Hc.
  exists (55296 + (cp - 65536) / 1024), (56320 + (cp - 65536) mod 1024).
  assert (0 <= (cp - 65536) / 1024 < 1024) by (Z.div_mod_to_equations; lia).
  pose proof (Z.mod_pos_bound (cp - 65536) 1024 eq_refl).
  repeat split.
  - unfold isLead; apply andb_true_iff; split; apply Z.leb_le; lia.
  - unfold isTrail; apply andb_true_iff; split; apply Z.leb_le; lia.
  - unfold pairCodePoint; Z.div_mod_to_equations; lia.
  - unfold codeUnits; destruct (Z.ltb_spec cp 65536); [lia | reflexivity].
Qed.

Lemma decode_sound (s d : jsstring) :
  decodeURIComponent s = Some d -> PercentDecoded s d.
Proof.
  unfold decodeURIComponent.
  remember (List.length s) as n eqn:Hn.
  revert s d Hn; induction n as [n IH] using lt_wf_ind; intros s d Hn.
  destruct s as [| c rest]; [intros [= <-]; constructor |].
  cbn [decodeFrom]; destruct (Z.eqb_spec c 37) as [-> | Hc].
  - destruct (decodeAt (37 :: rest)) as [[units k] |] eqn:A; [| discriminate].
    apply decodeAt_sound in A as (cp & e & t & Hs & Hcp & He & -> & Hk).
    destruct (utf8_lead cp Hcp) as (b & more & Hu & _).
    rewrite Hu in He; destruct (Escaped_head _ _ _ He) as (r & -> & Hl).
    rewrite <- Hu in He; cbn [app] in Hs; injection Hs as ->.
    rewrite <- Hk, <- Hl, decodeFrom_skip.
    destruct (decodeFrom 0 t) as [d' |] eqn:D; [| discriminate].
    intros [= <-].
    assert (P : PercentDecoded t d').
    { apply (IH (List.length t)); [| reflexivity | exact D].
      subst n; cbn [List.length]; rewrite length_app; lia. }
    change (37 :: r ++ t) with ((37 :: r) ++ t).
    destruct (Z.ltb_spec cp 65536).
    + rewrite codeUnits_bmp by assumption; apply Decoded_bmp; assumption.
    + destruct (codeUnits_supplementary cp Hcp) as (hi & lo & Hh & Hlo & <- & ->);
        [assumption |].
      apply Decoded_pair; assumption.
  - destruct (decodeFrom 0 rest) as [d' |] eqn:D; [| discriminate].
    intros [= <-]; apply Decoded_unit; [assumption |].
    apply (IH (List.length rest)); [subst n; cbn [List.length]; lia
                                   | reflexivity | exact D].
Qed.

(** A [%] of the text stands at the start of an escape. *)
Lemma Escaped_percent (octets : list Z) (e s before after : jsstring) :
  Escaped octets e ->
  before ++ 37 :: after = e ++ s ->
  (exists before', before = e ++ before' /\ s = before' ++ 37 :: after) \/
  (exists hi lo h1 h2 rest,
      after = h1 :: h2 :: rest /\ hexDigitOf hi h1 /\ hexDigitOf lo h2).
Proof.
  intros He; revert before.
  induction He as [| hi lo h1 h2 octets e A B _ IH]; intros before E.
  - left; exists before; split; [reflexivity | symmetry; exact E].
  - destruct before as [| x [| y [| z before]]]; cbn [app] in E.
    + injection E as ->; right; exists hi, lo, h1, h2, (e ++ s); auto.
    + injection E as _ E _; apply hexDigitOf_range in A; lia.
    + injection E as _ _ E _; apply hexDigitOf_range in B; lia.
    + injection E as -> -> -> E; destruct (IH _ E) as [(b' & -> & ->) | R];
        [left; exists b'; split; reflexivity | right; exact R].
Qed.

Lemma percent_needs_digits (s d : jsstring) :
  PercentDecoded s d ->
  forall before after, s = before ++ 37 :: after ->
  exists hi lo h1 h2 rest,
    after = h1 :: h2 :: rest /\ hexDigitOf hi h1 /\ hexDigitOf lo h2.
Proof.
  induction 1 as [| c s d Hc _ IH | cp e s d Hs Hb He _ IH
                  | hi lo e s d Hh Hl He _ IH]; intros before after E.
  - destruct before; discriminate E.
  - destruct before as [| x before]; cbn [app] in E; injection E as E1 E2.
    + contradiction.
    + exact (IH _ _ E2).
  - symmetry in E; destruct (Escaped_percent _ _ _ _ _ He E) as [(b' & _ & E') | R];
      [exact (IH _ _ E') | exact R].
  - symmetry in E; destruct (Escaped_percent _ _ _ _ _ He E) as [(b' & _ & E') | R];
      [exact (IH _ _ E') | exact R].
Qed.

(** C9: the decoder returns the percent-decoding of its input wherever the
    input has one, and the input unchanged wherever it has none; a [%]
    that is not followed by two hexadecimal digits, anywhere in the input,
    leaves it without one.  The decoder is a function into strings: it has
    a result on every input and raises nothing. *)
Theorem safeDecode_recovers (s : jsstring) :
  (forall decoded, PercentDecoded s decoded ->
                   safeDecodeURIComponent s = decoded) /\
  ((forall decoded, ~ PercentDecoded s decoded) ->
   safeDecodeURIComponent s = s) /\
  (forall before after,
      s = before ++ 37 :: after ->
      ~ (exists hi lo h1 h2 rest,
            after = h1 :: h2 :: rest /\ hexDigitOf hi h1 /\ hexDigitOf lo h2) ->
      (forall decoded, ~ PercentDecoded s decoded) /\
      safeDecodeURIComponent s = s).
Proof.
  assert (F : (forall decoded, ~ PercentDecoded s decoded) ->
              safeDecodeURIComponent s = s).
  { intros H; unfold safeDecodeURIComponent.
    destruct (decodeURIComponent s) as [d |] eqn:D; [| reflexivity].
    destruct (H d (decode_sound _ _ D)). }
  split; [| split; [exact F |]].
  - intros decoded H; unfold safeDecodeURIComponent.
    rewrite (decode_complete _ _ H); reflexivity.
  - intros before after E Hn.
    assert (N : forall decoded, ~ PercentDecoded s decoded).
    { intros d P; exact (Hn (percent_needs_digits _ _ P _ _ E)). }
    split; [exact N | exact (F N)].
Qed.

Lemma safeDecode_recovers_witness :
  safeDecodeURIComponent (lit "50%") = lit "50%" /\
  safeDecodeURIComponent (lit "%e2%82%AC5") = [8364; 53].
Proof.
  split.
  - apply (proj2 (proj2 (safeDecode_recovers (lit "50%"))) (lit "50") []);
      [reflexivity |].
    intros (hi & lo & h1 & h2 & rest & E & _); discriminate E.
  - apply (proj1 (safeDecode_recovers (lit "%e2%82%AC5"))).
    apply (Decoded_bmp 8364 (lit "%e2%82%AC") (lit "5") [53]).
    + unfold scalar; lia.
    + lia.
    + change (Escaped [16 * 14 + 2; 16 * 8 + 2; 16 * 10 + 12]
                      [37; 101; 50; 37; 56; 50; 37; 65; 67]).
      repeat constructor; unfold hexDigitOf; lia.
    + apply Decoded_unit; [lia | constructor].
Defined.

End DecoderFacts.

(** ** The builder and the dispatcher *)

Module ServiceFacts.
Import URI URIFacts RegExp RegExpFacts ParserFacts.


Lemma includes_at (sub s pre post : jsstring) :
  s = pre ++ sub ++ post -> includes sub s = true.
Proof. intros ->; apply includes_app. Qed.

Section Frame.

Context {Document : Type}.
Variable documentCookie : Document -> jsstring.
Variable assignCookie : jsstring -> Document -> Document.

Lemma write_frame (svc : Service Document) (cookieString : jsstring) :
  documentIsAccessible (stateOf (write assignCookie svc cookieString))
  = documentIsAccessible svc /\
  request (stateOf (write assignCookie svc cookieString)) = request svc.
Proof.
  unfold write; destruct (documentIsAccessible svc) eqn:E; [split; auto |].
  destruct (responseInit svc) as [[h |] |]; [| split; auto ..].
  destruct (Headers.set _ _ h); split; auto.
Qed.

Lemma setWith_frame (svc : Service Document) now name value options :
  documentIsAccessible (stateOf (setWith assignCookie svc now name value options))
  = documentIsAccessible svc /\
  request (stateOf (setWith assignCookie svc now name value options))
  = request svc.
Proof.
  unfold setWith; destruct (cookieStringOf now name value options) as [[s w] | e];
    [| split; reflexivity].
  apply (write_frame (warn svc w) s).
Qed.

Lemma set_frame (svc : Service Document) now name value eo p d sec ss part :
  documentIsAccessible
    (stateOf (set assignCookie svc now name value eo p d sec ss part))
  = documentIsAccessible svc /\
  request (stateOf (set assignCookie svc now name value eo p d sec ss part))
  = request svc.
Proof.
  unfold set; destruct (attributeLike eo p d sec ss); [destruct eo |];
    try apply setWith_frame.
  destruct (cookieStringOf now name value noOptions); split; reflexivity.
Qed.

Lemma deleteEach_frame now names p d sec ss (svc : Service Document) :
  documentIsAccessible
    (stateOf (deleteEach assignCookie svc now names p d sec ss))
  = documentIsAccessible svc /\
  request (stateOf (deleteEach assignCookie svc now names p d sec ss))
  = request svc.
Proof.
  revert svc; induction names as [| n names IH]; intros svc;
    cbn [deleteEach]; [split; reflexivity |].
  pose proof (set_frame svc now n []
                (EOOptions {| expires := Some (ExpDate expiresDate);
                              path := p; domain := d; secure := sec;
                              sameSite := Some match ss with
                                               | Some x => x
                                               | None => Lax
                                               end;
                              partitioned := None |})
                None None None None None) as F.
  fold (delete assignCookie svc now n p d sec ss) in F.
  destruct (delete assignCookie svc now n p d sec ss) as [svc' | e svc'];
    cbn [stateOf] in F.
  - destruct (IH svc') as [A B]; destruct F as [F1 F2]; split; congruence.
  - exact F.
Qed.

Lemma step_frame (svc : Service Document) (op : Op) :
  documentIsAccessible (step documentCookie assignCookie svc op)
  = documentIsAccessible svc /\
  request (step documentCookie assignCookie svc op) = request svc.
Proof.
  destruct op; cbn [step]; try (split; reflexivity).
  - apply set_frame.
  - apply set_frame.
  - unfold deleteAll.
    destruct (JsObject.keys (getAll documentCookie svc)); [split; reflexivity |].
    destruct (JsObject.get _ _); [split; reflexivity |].
    apply deleteEach_frame.
Qed.

Lemma run_frame (ops : list Op) (svc : Service Document) :
  documentIsAccessible (run documentCookie assignCookie svc ops)
  = documentIsAccessible svc /\
  request (run documentCookie assignCookie svc ops) = request svc.
Proof.
  revert svc; induction ops as [| op ops IH]; intros svc; cbn [run fold_left];
    [split; reflexivity |].
  destruct (IH (step documentCookie assignCookie svc op)) as [A B].
  destruct (step_frame svc op) as [C D].
  unfold run in *; split; congruence.
Qed.

(** C8: on the server (no document), after any sequence of operations of
    the service the raw cookie string that is read is the one read before:
    the value of the [Cookie] header of the request, or the empty string
    when the header or the request is missing. *)
Theorem server_reads_ignore_writes (svc : Service Document) (ops : list Op) :
  documentIsAccessible svc = false ->
  let svc' := run documentCookie assignCookie svc ops in
  cookie documentCookie svc'
  = match request svc with
    | Some headers =>
        match Headers.get (lit "cookie") headers with
        | Some v => v
        | None => []
        end
    | None => []
    end /\
  cookie documentCookie svc' = cookie documentCookie svc /\
  getAll documentCookie svc' = getAll documentCookie svc /\
  forall name,
    check documentCookie svc' name = check documentCookie svc name /\
    get documentCookie svc' name = get documentCookie svc name.
Proof.
  intros H svc'; destruct (run_frame ops svc) as [A B].
  assert (E : cookie documentCookie svc' = cookie documentCookie svc)
    by (unfold cookie, svc'; rewrite A, B, H; reflexivity).
  unfold getAll, check, get; rewrite E; repeat split.
  unfold cookie; rewrite H; reflexivity.
Qed.

End Frame.

Lemma server_reads_ignore_writes_witness :
  get noDocumentCookie
    (run noDocumentCookie noAssignCookie
       (serverInstance (Some (lit "a=1")) [])
       [OGet (lit "a");
        OSet 0 (lit "a") (lit "2") EOUndefined None None None None None;
        ODeleteAll 0 None None None None])
    (lit "a")
  = Normal (lit "1").
Proof.
  apply (proj2 (proj2 (proj2 (proj2
           (server_reads_ignore_writes noDocumentCookie noAssignCookie
              (serverInstance (Some (lit "a=1")) []) _ eq_refl))) (lit "a"))).
Defined.

End ServiceFacts.

(** ** The header collection *)

Module HeadersFacts.
Import Headers.

Lemma sameName_refl (name : jsstring) : sameName name name = true.
Proof. apply streq_refl. Qed.

Lemma filter_none (name : jsstring) (h : t) :
  existsb (fun e => sameName name (fst e)) h = false ->
  filter (fun e => sameName name (fst e)) h = [].
Proof.
  induction h as [| e h IH]; cbn [existsb filter]; [reflexivity |].
  destruct (sameName name (fst e)); [discriminate | exact IH].
Qed.

Lemma filter_others (name : jsstring) (h : t) :
  filter (fun e => sameName name (fst e))
         (filter (fun e => negb (sameName name (fst e))) h) = [].
Proof.
  induction h as [| e h IH]; cbn [filter]; [reflexivity |].
  destruct (sameName name (fst e)) eqn:E; cbn [negb filter]; [exact IH |].
  cbn [fst]; rewrite E; exact IH.
Qed.

Lemma replace_single (name v : jsstring) (h : t) :
  existsb (fun e => sameName name (fst e)) h = true ->
  exists n, filter (fun e => sameName name (fst e)) (replace name v h) = [(n, v)].
Proof.
  induction h as [| e h IH]; cbn [existsb replace]; [discriminate |].
  destruct (sameName name (fst e)) eqn:E; cbn [orb].
  - intros _; exists (fst e); cbn [filter fst]; rewrite E, filter_others; reflexivity.
  - intros H; destruct (IH H) as [n Hn]; exists n; cbn [filter]; rewrite E; exact Hn.
Qed.

(** After [set] the collection holds one entry under the name, whatever it
    held before. *)
Lemma set_single (name value : jsstring) (h h' : t) :
  set name value h = Some h' ->
  exists n, filter (fun e => sameName name (fst e)) h' = [(n, normalize value)].
Proof.
  unfold set; destruct (validValue (normalize value)); [| discriminate].
  destruct (existsb (fun e => sameName name (fst e)) h) eqn:E; intros [= <-].
  - apply replace_single; assumption.
  - exists name; rewrite filter_app, filter_none by assumption.
    cbn [filter fst app]; rewrite sameName_refl; reflexivity.
Qed.

End HeadersFacts.

(** ** The builder *)

Module BuilderFacts.
Import URI URIFacts ServiceFacts.

(** What the builder does with [expires] where it is not zero. *)
Lemma expires_emitted (now : Z) (name value : jsstring) (options : Options)
    (cookieString : jsstring) (warnings : list jsstring) :
  cookieStringOf now name value options = Normal (cookieString, warnings) ->
  match expires options with
  | Some (ExpNumber days) =>
      days <> 0 ->
      includes (lit "expires=" ++
                JsDate.toUTCString
                  (JsDate.timeClip (now + days * 86400 * 1000)) ++ lit ";")
               cookieString = true
  | Some (ExpDate d) =>
      includes (lit "expires=" ++ JsDate.toUTCString d ++ lit ";")
               cookieString = true
  | None => True
  end.
Proof.
  unfold cookieStringOf.
  destruct (encodeURIComponent name) as [en |]; [| discriminate].
  destruct (encodeURIComponent value) as [ev |]; [| discriminate].
  intros [= <- _].
  destruct (expires options) as [[days | d] |]; [| | exact I]; cbn [expiresPart].
  - intros Hd; destruct (Z.eqb_spec days 0); [contradiction |].
    replace (days * 86400 * 1000) with (days * 1000 * 60 * 60 * 24) by lia.
    eapply (includes_at _ _ (en ++ lit "=" ++ ev ++ lit ";")).
    rewrite <- !app_assoc; reflexivity.
  - eapply (includes_at _ _ (en ++ lit "=" ++ ev ++ lit ";")).
    rewrite <- !app_assoc; reflexivity.
Qed.

Section Builder.

Context {Document : Type}.
Variable assignCookie : jsstring -> Document -> Document.

Lemma options_eta (o : Options) :
  {| expires := expires o; path := path o; domain := domain o;
     secure := secure o; sameSite := sameSite o;
     partitioned := partitioned o |} = o.
Proof. destruct o; reflexivity. Qed.

Lemma setOptions_setWith (svc : Service Document) now name value options :
  setOptions assignCookie svc now name value (Some options)
  = setWith assignCookie svc now name value options.
Proof. reflexivity. Qed.

Lemma setPositional_setWith (svc : Service Document) now name value e p d sec ss part :
  attributeLike match e with
                | None => EOUndefined
                | Some (ExpNumber days) => EONumber days
                | Some (ExpDate dt) => EODate dt
                end p d sec ss = true ->
  setPositional assignCookie svc now name value e p d sec ss part
  = setWith assignCookie svc now name value (optionsBody e p d sec ss part).
Proof.
  intros H; unfold setPositional, set; rewrite H.
  destruct e as [[days | dt] |]; reflexivity.
Qed.

End Builder.

End BuilderFacts.

(** ** Duplicate names: [get] against [getAll] *)

Module DuplicateFacts.
Import URI URIFacts RegExp RegExpFacts ParserFacts.


Lemma token_no (k : Z) (s : jsstring) :
  token s -> k = 59 \/ k = 61 \/ k = 92 \/ k = 32 -> ~ In k s.
Proof.
  intros H Hk Hin; unfold token in H; rewrite Forall_forall in H.
  destruct (H k Hin) as (H1 & H2 & H3 & H4).
  destruct Hk as [-> | [-> | [-> | ->]]]; discriminate.
Qed.

(** Two texts cut at their first [=] agree part by part. *)
Lemma cut_unique (k : Z) (a b x y : jsstring) :
  ~ In k a -> ~ In k b -> a ++ k :: x = b ++ k :: y -> a = b /\ x = y.
Proof.
  revert b; induction a as [| c a IH]; intros [| d b] Ha Hb E; cbn [app] in E.
  - injection E as ->; auto.
  - injection E as <- _; exfalso; apply Hb; left; reflexivity.
  - injection E as -> _; exfalso; apply Ha; left; reflexivity.
  - injection E as -> E; destruct (IH b) as [-> ->]; auto.
    + intros Hi; apply Ha; right; assumption.
    + intros Hi; apply Hb; right; assumption.
Qed.

(** The matcher at the head of a pair: it succeeds exactly on the name. *)
Lemma matchName_pair (en n v t : jsstring) :
  token en -> token n -> token v ->
  (t = [] \/ exists t', t = 59 :: t') ->
  matchName en (n ++ 61 :: v ++ t) = if streq en n then Some v else None.
Proof.
  intros Hen Hn Hv Ht.
  destruct (streq en n) eqn:E.
  - apply streq_eq in E; subst n; unfold matchName.
    rewrite startsWith_app, Z.eqb_refl.
    destruct Ht as [-> | [t' ->]].
    + rewrite app_nil_r; apply matchValue_plain_end, token_plain; assumption.
    + apply matchValue_plain, token_plain; assumption.
  - unfold matchName.
    destruct (startsWith en (n ++ 61 :: v ++ t)) as [[| c r] |] eqn:S;
      try reflexivity.
    destruct (Z.eqb_spec c 61) as [-> |]; [| reflexivity].
    apply startsWith_Some in S; symmetry in S.
    apply cut_unique in S as [-> _];
      [| apply token_no; auto | apply token_no; auto].
    rewrite streq_refl in E; discriminate.
Qed.

Lemma token_head_not_space (s t : jsstring) (c : Z) :
  token s -> hd_error (s ++ 61 :: t) = Some c -> isWhiteSpace c = false.
Proof.
  intros H; destruct s as [| d s]; cbn [app hd_error]; intros [= <-];
    [reflexivity |].
  inversion H as [| ? ? (_ & _ & _ & Hw) _]; exact Hw.
Qed.

Lemma matchName_after_space (en s : jsstring) :
  token en -> matchName en (32 :: s) = None.
Proof.
  intros H; unfold matchName; destruct en as [| c en]; cbn [startsWith];
    [reflexivity |].
  inversion H as [| ? ? (_ & _ & _ & Hw) _]; subst.
  destruct (Z.eqb_spec c 32) as [-> |]; [discriminate Hw | reflexivity].
Qed.

Lemma matchSpaces_pair (en n v t : jsstring) :
  token en -> token n -> token v ->
  (t = [] \/ exists t', t = 59 :: t') ->
  matchSpaces en (32 :: n ++ 61 :: v ++ t)
  = if streq en n then Some v else None.
Proof.
  intros Hen Hn Hv Ht.
  assert (Inner : matchSpaces en (n ++ 61 :: v ++ t)
                  = matchName en (n ++ 61 :: v ++ t)).
  { destruct (n ++ 61 :: v ++ t) as [| c r] eqn:E; [reflexivity |].
    cbn [matchSpaces].
    rewrite (token_head_not_space n (v ++ t) c Hn) by (rewrite E; reflexivity).
    reflexivity. }
  cbn [matchSpaces]; change (isWhiteSpace 32) with true; cbv iota.
  rewrite Inner, matchName_pair by assumption.
  destruct (streq en n); [reflexivity | apply matchName_after_space; assumption].
Qed.

(** Between two separators nothing matches. *)
Lemma search_skip (en u t : jsstring) :
  ~ In 59 u -> search false en (u ++ t) = search false en t.
Proof.
  induction u as [| c u IH]; intros H; [reflexivity |].
  cbn [app search matchHere].
  destruct (Z.eqb_spec c 59) as [-> |]; [exfalso; apply H; left; reflexivity |].
  apply IH; intros Hi; apply H; right; assumption.
Qed.

Lemma search_cons (atStart : bool) (en : jsstring) (c : Z) (r : jsstring) :
  search atStart en (c :: r)
  = match matchHere atStart en (c :: r) with
    | Some v => Some v
    | None => search false en r
    end.
Proof. reflexivity. Qed.

Lemma tailText_cons (p : jsstring * jsstring) (rest : list (jsstring * jsstring)) :
  tailText (p :: rest) = 59 :: 32 :: fst p ++ 61 :: snd p ++ tailText rest.
Proof.
  unfold tailText, pairText; cbn [flat_map].
  change (lit "; ") with [59; 32]; change (lit "=") with [61].
  cbn [app]; rewrite <- !app_assoc; reflexivity.
Qed.

Lemma tailText_shape (pairs : list (jsstring * jsstring)) :
  tailText pairs = [] \/ exists t', tailText pairs = 59 :: t'.
Proof.
  destruct pairs as [| p rest]; [left; reflexivity |].
  right; rewrite tailText_cons; eexists; reflexivity.
Qed.

Lemma search_tail (en : jsstring) (pairs : list (jsstring * jsstring)) :
  token en -> Forall tokenPair pairs ->
  search false en (tailText pairs) = firstValue en pairs.
Proof.
  intros Hen H; induction H as [| [n v] rest [Hn Hv] _ IH]; [reflexivity |].
  cbn [fst snd] in *.
  rewrite tailText_cons, search_cons; cbn [fst snd]; unfold matchHere.
  change (59 =? 59) with true; cbv iota.
  rewrite matchSpaces_pair by (auto using tailText_shape).
  cbn [firstValue]; destruct (streq en n); [reflexivity |].
  pose proof (search_skip en (32 :: n ++ 61 :: v) (tailText rest)) as S.
  rewrite <- app_comm_cons, <- app_assoc, <- app_comm_cons in S.
  rewrite S; [exact IH |].
  intros [E | Hi]; [discriminate E |].
  apply in_app_or in Hi as [Hi | [E | Hi]]; [| discriminate E |].
  - revert Hi; apply token_no; auto.
  - revert Hi; apply token_no; auto.
Qed.

Lemma joinPairs_cons (p : jsstring * jsstring) (rest : list (jsstring * jsstring)) :
  joinPairs (p :: rest) = fst p ++ 61 :: snd p ++ tailText rest.
Proof.
  unfold joinPairs, pairText, tailText; change (lit "=") with [61].
  rewrite <- app_assoc; reflexivity.
Qed.

Lemma search_joined (en : jsstring) (pairs : list (jsstring * jsstring)) :
  token en -> Forall tokenPair pairs ->
  search true en (joinPairs pairs) = firstValue en pairs.
Proof.
  intros Hen H; destruct H as [| [n v] rest [Hn Hv] H];
    [destruct en; reflexivity |].
  rewrite joinPairs_cons; cbn [fst snd] in *.
  assert (M : matchHere true en (n ++ 61 :: v ++ tailText rest)
              = if streq en n then Some v else None).
  { unfold matchHere; rewrite matchName_pair by (auto using tailText_shape).
    destruct (streq en n); [reflexivity |].
    destruct n as [| c n]; cbn [app]; [reflexivity |].
    inversion Hn as [| ? ? (Hc & _) _]; subst; rewrite Hc; reflexivity. }
  cbn [firstValue].
  destruct (n ++ 61 :: v ++ tailText rest) as [| c r] eqn:E.
  - destruct n; discriminate E.
  - rewrite search_cons, M; destruct (streq en n); [reflexivity |].
    assert (R : exists u, r = u ++ tailText rest /\ ~ In 59 u).
    { destruct n as [| d n]; cbn [app] in E; injection E as _ <-.
      - exists v; split; [reflexivity | apply token_no; auto].
      - exists (n ++ 61 :: v); split; [rewrite <- app_assoc; reflexivity |].
        intros Hi; apply in_app_or in Hi as [Hi | [E | Hi]];
          [| discriminate E |].
        + revert Hi; apply token_no; [| auto].
          inversion Hn; assumption.
        + revert Hi; apply token_no; auto. }
    destruct R as (u & -> & Hu); rewrite search_skip by assumption.
    apply search_tail; assumption.
Qed.

(** The pieces [getAll] cuts the string into. *)
Lemma split_whole (k : Z) (u : jsstring) : ~ In k u -> split k u = [u].
Proof.
  induction u as [| c u IH]; intros H; [reflexivity |].
  cbn [split]; destruct (Z.eqb_spec c k) as [-> |];
    [exfalso; apply H; left; reflexivity |].
  rewrite IH; [reflexivity | intros Hi; apply H; right; assumption].
Qed.

Lemma split_app (k : Z) (u t : jsstring) :
  ~ In k u -> split k (u ++ k :: t) = u :: split k t.
Proof.
  induction u as [| c u IH]; intros H; cbn [app split].
  - rewrite Z.eqb_refl; reflexivity.
  - destruct (Z.eqb_spec c k) as [-> |];
      [exfalso; apply H; left; reflexivity |].
    rewrite IH; [reflexivity | intros Hi; apply H; right; assumption].
Qed.

Lemma fragment_no_semicolon (q : jsstring * jsstring) :
  tokenPair q -> ~ In 59 (fragmentText q).
Proof.
  intros [Hn Hv] [E | Hi]; [discriminate E |].
  apply in_app_or in Hi as [Hi | [E | Hi]]; [| discriminate E |];
    revert Hi; apply token_no; auto.
Qed.

Lemma split_tail (pairs : list (jsstring * jsstring)) (u : jsstring) :
  Forall tokenPair pairs -> ~ In 59 u ->
  split 59 (u ++ tailText pairs) = u :: map fragmentText pairs.
Proof.
  intros H; revert u; induction H as [| q rest Hq _ IH]; intros u Hu.
  - cbn [tailText flat_map map]; rewrite app_nil_r; apply split_whole; assumption.
  - rewrite tailText_cons, split_app by assumption.
    pose proof (IH (fragmentText q) (fragment_no_semicolon q Hq)) as S.
    unfold fragmentText in S at 1.
    rewrite <- app_comm_cons, <- app_assoc, <- app_comm_cons in S.
    rewrite S; reflexivity.
Qed.

Lemma split_joined (p : jsstring * jsstring) (rest : list (jsstring * jsstring)) :
  Forall tokenPair (p :: rest) ->
  split 59 (joinPairs (p :: rest))
  = (fst p ++ 61 :: snd p) :: map fragmentText rest.
Proof.
  intros H; inversion H as [| ? ? [Hn Hv] Hr]; subst.
  rewrite joinPairs_cons.
  pose proof (split_tail rest (fst p ++ 61 :: snd p) Hr) as S.
  rewrite <- app_assoc, <- app_comm_cons in S; apply S.
  intros Hi; apply in_app_or in Hi as [Hi | [E | Hi]]; [| discriminate E |];
    revert Hi; apply token_no; auto.
Qed.

Lemma stripLeadingSpace_token (n : jsstring) :
  token n -> stripLeadingSpace n = n.
Proof.
  intros H; destruct n as [| c n]; [reflexivity |]; cbn [stripLeadingSpace].
  inversion H as [| ? ? (_ & _ & _ & Hw) _]; subst.
  destruct (Z.eqb_spec c 32) as [-> |]; [discriminate Hw | reflexivity].
Qed.

Lemma parseStep_pair (cookies : JsObject.t) (q : jsstring * jsstring) :
  tokenPair q ->
  parseStep cookies (fst q ++ 61 :: snd q)
  = JsObject.assign (safeDecodeURIComponent (fst q))
                    (safeDecodeURIComponent (snd q)) cookies.
Proof.
  intros [Hn Hv]; unfold parseStep.
  rewrite split_app, split_whole by (apply token_no; auto).
  cbn [hd nth_error toStringOrUndefined].
  rewrite stripLeadingSpace_token by assumption; reflexivity.
Qed.

Lemma parseStep_fragment (cookies : JsObject.t) (q : jsstring * jsstring) :
  tokenPair q ->
  parseStep cookies (fragmentText q)
  = JsObject.assign (safeDecodeURIComponent (fst q))
                    (safeDecodeURIComponent (snd q)) cookies.
Proof.
  intros [Hn Hv]; unfold parseStep, fragmentText.
  rewrite app_comm_cons, split_app, split_whole.
  - reflexivity.
  - apply token_no; auto.
  - intros [E | Hi]; [discriminate E |]; revert Hi; apply token_no; auto.
Qed.

Lemma fold_fragments (rest : list (jsstring * jsstring)) (o : JsObject.t) :
  Forall tokenPair rest ->
  fold_left parseStep (map fragmentText rest) o = fold_left assignPair rest o.
Proof.
  intros H; revert o; induction H as [| q rest Hq _ IH]; intros o;
    [reflexivity |].
  cbn [map fold_left]; rewrite parseStep_fragment by assumption; apply IH.
Qed.

Lemma parseAll_joined (pairs : list (jsstring * jsstring)) :
  Forall tokenPair pairs ->
  parseAll (joinPairs pairs) = fold_left assignPair pairs [].
Proof.
  intros H; destruct pairs as [| p rest]; [reflexivity |].
  assert (E : parseAll (joinPairs (p :: rest))
              = fold_left parseStep (split 59 (joinPairs (p :: rest))) []).
  { rewrite joinPairs_cons.
    destruct (fst p ++ 61 :: snd p ++ tailText rest) eqn:E; [| reflexivity].
    destruct (fst p); discriminate E. }
  rewrite E, split_joined by assumption.
  inversion H as [| ? ? Hp Hr]; subst.
  cbn [fold_left]; rewrite parseStep_pair, fold_fragments by assumption.
  reflexivity.
Qed.

(** The result object: the last assignment under a key is what is read. *)
Lemma get_put_same (k v : jsstring) (o : JsObject.t) :
  JsObject.get k (JsObject.put k v o) = Some v.
Proof.
  induction o as [| [k' v'] o IH]; cbn [JsObject.put JsObject.get].
  - rewrite streq_refl; reflexivity.
  - destruct (streq k k') eqn:E; cbn [JsObject.get]; rewrite E; auto.
Qed.

Lemma get_put_other (k k' v : jsstring) (o : JsObject.t) :
  streq k k' = false ->
  JsObject.get k (JsObject.put k' v o) = JsObject.get k o.
Proof.
  intros H; induction o as [| [k2 v2] o IH]; cbn [JsObject.put JsObject.get].
  - rewrite H; reflexivity.
  - destruct (streq k' k2) eqn:E; cbn [JsObject.get].
    + apply streq_eq in E; subst k2; rewrite H; reflexivity.
    + destruct (streq k k2); auto.
Qed.

Lemma get_assign (k k' v : jsstring) (o : JsObject.t) :
  k <> lit "__proto__" ->
  JsObject.get k (JsObject.assign k' v o)
  = if streq k k' then Some v else JsObject.get k o.
Proof.
  intros H; unfold JsObject.assign.
  destruct (streq k k') eqn:E.
  - apply streq_eq in E; subst k'; rewrite streq_neq by assumption.
    apply get_put_same.
  - destruct (streq k' (lit "__proto__")); [reflexivity |].
    apply get_put_other; assumption.
Qed.

Lemma get_fold_assign (k : jsstring) (cookies : list (jsstring * jsstring))
    (o : JsObject.t) :
  k <> lit "__proto__" ->
  JsObject.get k
    (fold_left (fun acc c => JsObject.assign (fst c) (snd c) acc) cookies o)
  = match lastValue k cookies with
    | Some v => Some v
    | None => JsObject.get k o
    end.
Proof.
  intros H; revert o; induction cookies as [| [n v] rest IH]; intros o;
    [reflexivity |].
  cbn [fold_left lastValue fst snd]; rewrite IH.
  destruct (lastValue k rest); [reflexivity |].
  rewrite get_assign by assumption; destruct (streq k n); reflexivity.
Qed.

(** Encoded pairs and the cookies they stand for. *)
Lemma encodeCookies_tokens (cookies pairs : list (jsstring * jsstring)) :
  encodeCookies cookies = Some pairs -> Forall tokenPair pairs.
Proof.
  revert pairs; induction cookies as [| [n v] rest IH]; intros pairs;
    cbn [encodeCookies].
  - intros [= <-]; constructor.
  - destruct (encodeURIComponent n) as [en |] eqn:Hn; [| discriminate].
    destruct (encodeURIComponent v) as [ev |] eqn:Hv; [| discriminate].
    destruct (encodeCookies rest) as [r |]; [| discriminate].
    intros [= <-]; constructor; [| apply IH; reflexivity].
    split; cbn [fst snd]; eapply encode_token; eassumption.
Qed.

Lemma fold_decoded (cookies pairs : list (jsstring * jsstring)) (o : JsObject.t) :
  encodeCookies cookies = Some pairs ->
  fold_left assignPair pairs o
  = fold_left (fun acc c => JsObject.assign (fst c) (snd c) acc) cookies o.
Proof.
  revert pairs o; induction cookies as [| [n v] rest IH]; intros pairs o;
    cbn [encodeCookies].
  - intros [= <-]; reflexivity.
  - destruct (encodeURIComponent n) as [en |] eqn:Hn; [| discriminate].
    destruct (encodeURIComponent v) as [ev |] eqn:Hv; [| discriminate].
    destruct (encodeCookies rest) as [r |]; [| discriminate].
    intros [= <-]; cbn [fold_left]; unfold assignPair at 2; cbn [fst snd].
    rewrite (safeDecode_encoded _ _ Hn), (safeDecode_encoded _ _ Hv).
    apply IH; reflexivity.
Qed.

Lemma firstValue_encoded (name en : jsstring)
    (cookies pairs : list (jsstring * jsstring)) :
  encodeURIComponent name = Some en ->
  encodeCookies cookies = Some pairs ->
  firstValue en pairs
  = match firstValue name cookies with
    | Some v => encodeURIComponent v
    | None => None
    end.
Proof.
  intros He; revert pairs; induction cookies as [| [n v] rest IH]; intros pairs;
    cbn [encodeCookies].
  - intros [= <-]; reflexivity.
  - destruct (encodeURIComponent n) as [en' |] eqn:Hn; [| discriminate].
    destruct (encodeURIComponent v) as [ev |] eqn:Hv; [| discriminate].
    destruct (encodeCookies rest) as [r |]; [| discriminate].
    intros [= <-]; cbn [firstValue].
    destruct (streq name n) eqn:E.
    + apply streq_eq in E; subst n.
      replace en' with en by congruence.
      rewrite streq_refl; symmetry; assumption.
    + rewrite streq_neq; [apply IH; reflexivity |].
      intros ->; rewrite (encode_inj _ _ _ He Hn), streq_refl in E; discriminate.
Qed.

Lemma firstValue_encodable (name v : jsstring)
    (cookies pairs : list (jsstring * jsstring)) :
  encodeCookies cookies = Some pairs ->
  firstValue name cookies = Some v ->
  exists en, encodeURIComponent name = Some en.
Proof.
  revert pairs; induction cookies as [| [n w] rest IH]; intros pairs;
    cbn [encodeCookies firstValue]; [discriminate |].
  destruct (encodeURIComponent n) as [en |] eqn:Hn; [| discriminate].
  destruct (encodeURIComponent w) as [ew |]; [| discriminate].
  destruct (encodeCookies rest) as [r |]; [| discriminate].
  intros _; destruct (streq name n) eqn:E.
  - apply streq_eq in E; subst n; eauto.
  - apply (IH r); reflexivity.
Qed.

Lemma firstValue_value_encodable (name v : jsstring)
    (cookies pairs : list (jsstring * jsstring)) :
  encodeCookies cookies = Some pairs ->
  firstValue name cookies = Some v ->
  exists ev, encodeURIComponent v = Some ev.
Proof.
  revert pairs; induction cookies as [| [n w] rest IH]; intros pairs;
    cbn [encodeCookies firstValue]; [discriminate |].
  destruct (encodeURIComponent n) as [en |]; [| discriminate].
  destruct (encodeURIComponent w) as [ew |] eqn:Hw; [| discriminate].
  destruct (encodeCookies rest) as [r |]; [| discriminate].
  intros _; destruct (streq name n).
  - intros [= <-]; eauto.
  - apply (IH r); reflexivity.
Qed.

(** X24: for every raw cookie string made of percent-encoded
    [name=value] pairs joined by [; ], and every name in it other than
    [__proto__], [get] returns the value of the first pair of that name and
    the object of [getAll] gives, under that name, the value of the last. *)
Theorem get_first_getAll_last (cookies : list (jsstring * jsstring))
    (cookieString name first last : jsstring) :
  rawCookieString cookies = Some cookieString ->
  firstValue name cookies = Some first ->
  lastValue name cookies = Some last ->
  name <> lit "__proto__" ->
  getIn cookieString name = Normal first /\
  JsObject.read name (parseAll cookieString) = JsObject.Own last.
Proof.
  unfold rawCookieString; intros Hraw Hfirst Hlast Hname.
  destruct (encodeCookies cookies) as [pairs |] eqn:Hp; [| discriminate].
  injection Hraw as <-.
  pose proof (encodeCookies_tokens _ _ Hp) as Htok.
  destruct (firstValue_encodable _ _ _ _ Hp Hfirst) as [en Hen].
  split.
  - rewrite (getIn_encoded _ _ _ Hen).
    rewrite search_joined by (eauto using encode_token).
    rewrite (firstValue_encoded _ _ _ _ Hen Hp), Hfirst.
    destruct (encodeURIComponent first) as [ev |] eqn:Hv.
    + f_equal; destruct ev as [| c r].
      * symmetry; apply encode_nil; assumption.
      * apply safeDecode_encoded; assumption.
    + destruct (firstValue_value_encodable _ _ _ _ Hp Hfirst) as [ev' Hv'].
      congruence.
  - unfold JsObject.read; rewrite parseAll_joined by assumption.
    rewrite (fold_decoded _ _ _ Hp), get_fold_assign by assumption.
    rewrite Hlast; reflexivity.
Qed.

Lemma get_first_getAll_last_witness :
  getIn (lit "a=1; b=x; a=2") (lit "a") = Normal (lit "1") /\
  JsObject.read (lit "a") (parseAll (lit "a=1; b=x; a=2"))
  = JsObject.Own (lit "2").
Proof.
  apply (get_first_getAll_last
           [(lit "a", lit "1"); (lit "b", lit "x"); (lit "a", lit "2")]
           (lit "a=1; b=x; a=2") (lit "a") (lit "1") (lit "2"));
    try reflexivity.
  intros E; discriminate E.
Defined.

End DuplicateFacts.

(** ** The name matcher and letter case *)

Module NameFacts.
Import URI URIFacts RegExp RegExpFacts ParserFacts DuplicateFacts.

(** C1 (as stated, refuted): it is not so that [check(name)] is true on a
    raw cookie string that holds the name in another letter case. *)
Lemma check_ignoring_case_fails :
  ~ (forall name other value : jsstring,
        foldCase other = foldCase name ->
        checkIn (other ++ lit "=" ++ value) name = Normal true).
Proof.
  intros H; specialize (H (lit "a") (lit "A") (lit "1") eq_refl).
  vm_compute in H; discriminate H.
Qed.

(** C1 (amended): the matcher compares the name token exactly, letter case
    included.  On a raw cookie string [other=value], [check(name)] is true
    if and only if [other] is the percent-encoded name, code unit by code
    unit; and on any raw cookie string, [check(name)] is true only if the
    string contains the percent-encoded name, followed by [=]. *)
Theorem check_is_case_sensitive
    (name encodedName other value cookieString : jsstring) :
  encodeURIComponent name = Some encodedName ->
  (token other -> token value ->
   checkIn (other ++ lit "=" ++ value) name
   = Normal (streq encodedName other)) /\
  (checkIn cookieString name = Normal true ->
   exists pre post, cookieString = pre ++ encodedName ++ lit "=" ++ post).
Proof.
  intros H; split.
  - intros Ho Hv; rewrite (checkIn_encoded _ _ _ H); unfold test, exec.
    cbn [literal].
    pose proof (search_joined encodedName [(other, value)]
                  (encode_token _ _ H)) as S.
    unfold joinPairs, pairText in S; cbn [fst snd flat_map firstValue] in S.
    rewrite app_nil_r in S; rewrite S.
    + destruct (streq encodedName other); reflexivity.
    + repeat constructor; assumption.
  - rewrite (checkIn_encoded _ _ _ H); unfold test, exec; cbn [literal].
    destruct (search true encodedName cookieString) eqn:E; [| discriminate].
    intros _; eapply search_occurs; eassumption.
Qed.

Lemma check_is_case_sensitive_witness :
  checkIn (lit "SID=1") (lit "sid") = Normal false /\
  checkIn (lit "sid=1") (lit "sid") = Normal true /\
  exists pre post, lit "x=0; sid=1" = pre ++ lit "sid" ++ lit "=" ++ post.
Proof.
  split; [| split].
  - apply (proj1 (check_is_case_sensitive (lit "sid") (lit "sid") (lit "SID")
                    (lit "1") [] eq_refl));
      repeat constructor.
  - apply (proj1 (check_is_case_sensitive (lit "sid") (lit "sid") (lit "sid")
                    (lit "1") [] eq_refl));
      repeat constructor.
  - apply (proj2 (check_is_case_sensitive (lit "sid") (lit "sid") [] []
                    (lit "x=0; sid=1") eq_refl)).
    reflexivity.
Defined.

End NameFacts.

(** ** The code at the inputs where it leaves the specification *)

Module Divergences.
Import URI RegExp ServiceFacts HeadersFacts DuplicateFacts.

(** [getAll] keeps the text between the first and the second [=]. *)
Lemma parseStep_second_equals (cookies : JsObject.t) (n v w : jsstring) :
  ~ In 61 n -> ~ In 61 v ->
  parseStep cookies (n ++ 61 :: v ++ 61 :: w)
  = JsObject.assign (safeDecodeURIComponent (stripLeadingSpace n))
                    (safeDecodeURIComponent v) cookies.
Proof.
  intros Hn Hv; unfold parseStep; rewrite !split_app by assumption; reflexivity.
Qed.

Section Server.

Context {Document : Type}.
Variable assignCookie : jsstring -> Document -> Document.

(** On the server a write leaves one [Set-Cookie] entry, whatever the
    response held before. *)
Lemma write_server_single (svc svc' : Service Document) (headers : Headers.t)
    (cookieString : jsstring) :
  documentIsAccessible svc = false ->
  responseInit svc = Some (Some headers) ->
  write assignCookie svc cookieString = Returned svc' ->
  exists headers' n,
    responseInit svc' = Some (Some headers') /\
    filter (fun e => Headers.sameName (lit "Set-Cookie") (fst e)) headers'
    = [(n, Headers.normalize cookieString)].
Proof.
  intros Hd Hr; unfold write; rewrite Hd, Hr.
  destruct (Headers.set (lit "Set-Cookie") cookieString headers) as [h' |] eqn:E;
    [| discriminate].
  intros [= <-]; destruct (set_single _ _ _ _ E) as [n Hn].
  exists h', n; split; [reflexivity | exact Hn].
Qed.

(** Without another attribute the positional [partitioned] is not read. *)
Lemma positional_partitioned_ignored (svc : Service Document) now name value
    eo p d sec ss part :
  attributeLike eo p d sec ss = false ->
  set assignCookie svc now name value eo p d sec ss part
  = set assignCookie svc now name value eo p d sec ss None.
Proof. intros H; unfold set; rewrite H; reflexivity. Qed.

End Server.

(** C2 (the code differs): on the raw cookie string [a=b=c], [getAll]
    binds [a] to [b], not to the whole remainder [b=c]; [get] on the same
    string returns [b=c]. *)
Theorem getAll_cuts_value_at_equals :
  getAll noDocumentCookie (serverInstance (Some (lit "a=b=c")) [])
  = [(lit "a", lit "b")] /\
  get noDocumentCookie (serverInstance (Some (lit "a=b=c")) []) (lit "a")
  = Normal (lit "b=c").
Proof. split; reflexivity. Qed.

(** C3 (the code differs): on the server, after [set] of [a] and then
    [set] of [b], the response headers hold the string of [b] alone: the
    second call has replaced the entry of the first. *)
Theorem server_set_keeps_last_cookie_only :
  let svc1 := stateOf (setOptions noAssignCookie (serverInstance None [])
                         0 (lit "a") (lit "1") None) in
  let svc2 := stateOf (setOptions noAssignCookie svc1 0 (lit "b") (lit "2") None) in
  responseInit svc1 = Some (Some [(lit "Set-Cookie", lit "a=1;sameSite=Lax;")]) /\
  responseInit svc2 = Some (Some [(lit "Set-Cookie", lit "b=2;sameSite=Lax;")]).
Proof. split; reflexivity. Qed.

(** Had the write appended, the response would hold both strings. *)
Example append_keeps_both :
  Headers.append (lit "Set-Cookie") (lit "b=2;sameSite=Lax;")
    [(lit "Set-Cookie", lit "a=1;sameSite=Lax;")]
  = Some [(lit "Set-Cookie", lit "a=1;sameSite=Lax;");
          (lit "Set-Cookie", lit "b=2;sameSite=Lax;")].
Proof. reflexivity. Qed.

(** C4 (the code differs): a positional call with [partitioned = true] and
    no other attribute writes a string without [Partitioned;]; with a path
    as well, the same call writes it. *)
Theorem positional_partitioned_alone_is_dropped :
  responseInit
    (stateOf (setPositional noAssignCookie (serverInstance None []) 0
                (lit "x") (lit "y") None None None None None (Some true)))
  = Some (Some [(lit "Set-Cookie", lit "x=y;sameSite=Lax;")]) /\
  responseInit
    (stateOf (setPositional noAssignCookie (serverInstance None []) 0
                (lit "x") (lit "y") None (Some (lit "/")) None None None (Some true)))
  = Some (Some [(lit "Set-Cookie", lit "x=y;path=/;sameSite=Lax;Partitioned;")]).
Proof. split; reflexivity. Qed.

(** C5 (the code differs): with [expires] the number 0, in either call
    shape, the string has no [expires=]; with the number 1 it has the date
    one day after [now]. *)
Theorem expires_zero_is_dropped :
  cookieStringOf 0 (lit "x") (lit "y")
    {| expires := Some (ExpNumber 0); path := None; domain := None;
       secure := None; sameSite := None; partitioned := None |}
  = Normal (lit "x=y;sameSite=Lax;", []) /\
  responseInit
    (stateOf (setPositional noAssignCookie (serverInstance None []) 0
                (lit "x") (lit "y") (Some (ExpNumber 0)) None None None None None))
  = Some (Some [(lit "Set-Cookie", lit "x=y;sameSite=Lax;")]) /\
  cookieStringOf 0 (lit "x") (lit "y")
    {| expires := Some (ExpNumber 1); path := None; domain := None;
       secure := None; sameSite := None; partitioned := None |}
  = Normal (lit "x=y;expires=Fri, 02 Jan 1970 00:00:00 GMT;sameSite=Lax;", []).
Proof. repeat split; reflexivity. Qed.

(** C10 (the code differs): on the raw cookie string
    [__proto__=1; __proto__=2], [check] finds the name and [get] returns
    the value of its first occurrence, while the object of [getAll] has no
    entry at all: what it gives under the name is the member inherited from
    [Object.prototype], not the value [2] of the last occurrence.  With the
    name [a] in its place, [get] returns the first value and [getAll] holds
    the last. *)
Theorem getAll_loses_proto_cookie :
  let svc := serverInstance (Some (lit "__proto__=1; __proto__=2")) [] in
  let svc' := serverInstance (Some (lit "a=1; a=2")) [] in
  check noDocumentCookie svc (lit "__proto__") = Normal true /\
  get noDocumentCookie svc (lit "__proto__") = Normal (lit "1") /\
  getAll noDocumentCookie svc = [] /\
  JsObject.read (lit "__proto__") (getAll noDocumentCookie svc)
  = JsObject.Inherited (lit "__proto__") /\
  get noDocumentCookie svc' (lit "a") = Normal (lit "1") /\
  JsObject.read (lit "a") (getAll noDocumentCookie svc') = JsObject.Own (lit "2").
Proof. repeat split; reflexivity. Qed.

End Divergences.

(** ** More on the name matcher, [check] and [get] *)

Module MatcherCoverage.
Import URI URIFacts RegExp RegExpFacts ParserFacts DuplicateFacts.

Lemma matchSpaces_shape (name s v : jsstring) :
  matchSpaces name s = Some v ->
  exists ws post,
    Forall (fun c => isWhiteSpace c = true) ws /\ s = ws ++ name ++ 61 :: post.
Proof.
  revert v; induction s as [| c s IH]; intros v; cbn [matchSpaces].
  - intros H; apply matchName_occurs in H as [post ->].
    exists [], post; split; [constructor | reflexivity].
  - destruct (isWhiteSpace c) eqn:W.
    + destruct (matchSpaces name s) as [v' |].
      * intros _; destruct (IH v' eq_refl) as (ws & post & Hws & ->).
        exists (c :: ws), post; split; [constructor; assumption | reflexivity].
      * intros H; apply matchName_occurs in H as [post ->].
        exists [], post; split; [constructor | reflexivity].
    + intros H; apply matchName_occurs in H as [post ->].
      exists [], post; split; [constructor | reflexivity].
Qed.

Lemma search_shape (atStart : bool) (name s v : jsstring) :
  search atStart name s = Some v ->
  (atStart = true /\ exists post, s = name ++ 61 :: post) \/
  exists pre ws post,
    Forall (fun c => isWhiteSpace c = true) ws /\
    s = pre ++ 59 :: ws ++ name ++ 61 :: post.
Proof.
  assert (Here : forall a s v, matchHere a name s = Some v ->
            (a = true /\ exists post, s = name ++ 61 :: post) \/
            exists pre ws post,
              Forall (fun c => isWhiteSpace c = true) ws /\
              s = pre ++ 59 :: ws ++ name ++ 61 :: post).
  { intros a s0 v0; unfold matchHere.
    destruct (if a then matchName name s0 else None) as [v' |] eqn:E.
    - intros _; destruct a; [| discriminate].
      left; split; [reflexivity |]; eapply matchName_occurs; eassumption.
    - destruct s0 as [| c r]; [discriminate |].
      destruct (Z.eqb_spec c 59) as [-> |]; [| discriminate].
      intros H; apply matchSpaces_shape in H as (ws & post & Hws & ->).
      right; exists [], ws, post; split; [assumption | reflexivity]. }
  revert atStart v; induction s as [| c s IH]; intros atStart v; cbn [search].
  - destruct (matchHere atStart name []) eqn:E; [| discriminate].
    intros _; eapply Here; eassumption.
  - destruct (matchHere atStart name (c :: s)) eqn:E.
    + intros _; eapply Here; eassumption.
    + intros H; apply IH in H as [[Ha _] | (pre & ws & post & Hws & ->)];
        [discriminate |].
      right; exists (c :: pre), ws, post; split; [assumption | reflexivity].
Qed.

(** X1: for every name without a backslash the pattern of [getCookieRegExp]
    takes the name literally, and it matches only where the name, followed
    by [=], stands at the very start of the string or after a [;] and white
    space. *)
Theorem getCookieRegExp_literal_anchored (name : jsstring) :
  Forall (fun c => (c =? 92) = false) name ->
  exists regExp,
    getCookieRegExp name = Some regExp /\
    forall s, RegExp.test regExp s = true ->
      (exists post, s = name ++ lit "=" ++ post) \/
      exists pre ws post,
        Forall (fun c => isWhiteSpace c = true) ws /\
        s = pre ++ lit ";" ++ ws ++ name ++ lit "=" ++ post.
Proof.
  intros H; exists {| literal := name |}; split.
  - unfold getCookieRegExp; rewrite readLiteral_escapeName by assumption.
    reflexivity.
  - intros s; unfold test, exec; cbn [literal].
    destruct (search true name s) as [v |] eqn:E; [| discriminate].
    intros _; apply search_shape in E as [[_ Hp] | Hq]; [left | right]; assumption.
Qed.

Lemma getCookieRegExp_literal_anchored_witness :
  exists regExp,
    getCookieRegExp (lit "a.b") = Some regExp /\
    RegExp.test regExp (lit "axb=1; xa.b=2") = false /\
    RegExp.test regExp (lit "c=1;  a.b=2") = true.
Proof.
  destruct (getCookieRegExp_literal_anchored (lit "a.b")) as (re & Hre & _).
  - repeat constructor.
  - exists re; split; [exact Hre |].
    injection Hre as <-; split; reflexivity.
Defined.

Lemma isSome_first_last (name : jsstring) (cookies : list (jsstring * jsstring)) :
  isSome (firstValue name cookies) = isSome (lastValue name cookies).
Proof.
  induction cookies as [| [n v] rest IH]; [reflexivity |].
  cbn [firstValue lastValue]; destruct (streq name n).
  - destruct (lastValue name rest); reflexivity.
  - rewrite IH; destruct (lastValue name rest); reflexivity.
Qed.

Lemma search_raw (cookies pairs : list (jsstring * jsstring))
    (name en : jsstring) :
  encodeCookies cookies = Some pairs ->
  encodeURIComponent name = Some en ->
  search true en (joinPairs pairs)
  = match firstValue name cookies with
    | Some v => encodeURIComponent v
    | None => None
    end.
Proof.
  intros Hp Hen.
  rewrite search_joined
    by (eauto using encode_token, encodeCookies_tokens).
  apply firstValue_encoded; assumption.
Qed.

(** X2: on a raw cookie string of percent-encoded pairs joined by [; ],
    [check(name)] is true exactly when one of the cookies has that name; a
    name that is only a part of another cookie's name is not found. *)
Theorem check_finds_exact_names (cookies : list (jsstring * jsstring))
    (cookieString name encodedName : jsstring) :
  rawCookieString cookies = Some cookieString ->
  encodeURIComponent name = Some encodedName ->
  checkIn cookieString name = Normal (isSome (firstValue name cookies)).
Proof.
  unfold rawCookieString; intros Hraw Hen.
  destruct (encodeCookies cookies) as [pairs |] eqn:Hp; [| discriminate].
  injection Hraw as <-.
  rewrite (checkIn_encoded _ _ _ Hen); unfold test, exec; cbn [literal].
  rewrite (search_raw _ _ _ _ Hp Hen).
  destruct (firstValue name cookies) as [v |] eqn:F; [| reflexivity].
  destruct (firstValue_value_encodable _ _ _ _ Hp F) as [ev ->]; reflexivity.
Qed.

Lemma check_finds_exact_names_witness :
  checkIn (lit "foobar=1; x=2") (lit "foo") = Normal false /\
  checkIn (lit "foobar=1; x=2") (lit "x") = Normal true.
Proof.
  split.
  - apply (check_finds_exact_names
             [(lit "foobar", lit "1"); (lit "x", lit "2")]
             (lit "foobar=1; x=2") (lit "foo") (lit "foo")); reflexivity.
  - apply (check_finds_exact_names
             [(lit "foobar", lit "1"); (lit "x", lit "2")]
             (lit "foobar=1; x=2") (lit "x") (lit "x")); reflexivity.
Defined.

(** X3: [check] and [get] throw exactly when the name cannot be
    percent-encoded (an unpaired surrogate), and then a URIError; for every
    other name they return a result on every raw cookie string, well formed
    or not. *)
Theorem check_get_throw_only_on_bad_name (cookieString name : jsstring) :
  (encodeURIComponent name = None ->
   checkIn cookieString name = Throw URIError /\
   getIn cookieString name = Throw URIError) /\
  (forall encodedName, encodeURIComponent name = Some encodedName ->
   exists found value,
     checkIn cookieString name = Normal found /\
     getIn cookieString name = Normal value).
Proof.
  split.
  - intros H; unfold getIn, checkIn; rewrite H; split; reflexivity.
  - intros en H; rewrite (checkIn_encoded _ _ _ H), (getIn_encoded _ _ _ H).
    eauto.
Qed.

Lemma check_get_throw_only_on_bad_name_witness :
  getIn (lit "a=1") [55357] = Throw URIError /\
  exists found value,
    checkIn (lit "a=%; =;;%zz") (lit "a") = Normal found /\
    getIn (lit "a=%; =;;%zz") (lit "a") = Normal value.
Proof.
  split.
  - apply (proj1 (check_get_throw_only_on_bad_name (lit "a=1") [55357])).
    reflexivity.
  - apply (proj2 (check_get_throw_only_on_bad_name (lit "a=%; =;;%zz") (lit "a"))
             (lit "a")).
    reflexivity.
Defined.

(** X4: on a raw cookie string of percent-encoded pairs, [get] of a name
    that no cookie has returns the empty string. *)
Theorem get_absent_is_empty (cookies : list (jsstring * jsstring))
    (cookieString name encodedName : jsstring) :
  rawCookieString cookies = Some cookieString ->
  encodeURIComponent name = Some encodedName ->
  firstValue name cookies = None ->
  getIn cookieString name = Normal [].
Proof.
  unfold rawCookieString; intros Hraw Hen F.
  destruct (encodeCookies cookies) as [pairs |] eqn:Hp; [| discriminate].
  injection Hraw as <-.
  rewrite (getIn_encoded _ _ _ Hen), (search_raw _ _ _ _ Hp Hen), F.
  reflexivity.
Qed.

Lemma get_absent_is_empty_witness :
  getIn (lit "foobar=1; x=2") (lit "bar") = Normal [].
Proof.
  apply (get_absent_is_empty [(lit "foobar", lit "1"); (lit "x", lit "2")]
           (lit "foobar=1; x=2") (lit "bar") (lit "bar")); reflexivity.
Defined.

End MatcherCoverage.

(** ** More on [getAll] *)

Module GetAllCoverage.
Import URI URIFacts RegExp RegExpFacts ParserFacts DuplicateFacts.

Lemma keys_put (k v : jsstring) (o : JsObject.t) (x : jsstring) :
  In x (map fst (JsObject.put k v o)) <-> x = k \/ In x (map fst o).
Proof.
  induction o as [| [k' v'] o IH]; cbn [JsObject.put map fst In].
  - intuition.
  - destruct (streq k k') eqn:E; cbn [map fst In].
    + apply streq_eq in E; subst k'; intuition.
    + rewrite IH; intuition.
Qed.

Lemma nodup_put (k v : jsstring) (o : JsObject.t) :
  NoDup (map fst o) -> NoDup (map fst (JsObject.put k v o)).
Proof.
  induction o as [| [k' v'] o IH]; cbn [JsObject.put map fst]; intros H.
  - repeat constructor; intros [].
  - inversion H as [| ? ? Hn Hd]; subst.
    destruct (streq k k') eqn:E; cbn [map fst]; [constructor; assumption |].
    constructor; [| apply IH; assumption].
    rewrite keys_put; intros [-> | Hi]; [| contradiction].
    rewrite streq_refl in E; discriminate.
Qed.

Lemma wellKeyed_assign (k v : jsstring) (o : JsObject.t) :
  wellKeyed o -> wellKeyed (JsObject.assign k v o).
Proof.
  intros [Hd Hp]; unfold JsObject.assign.
  destruct (streq k (lit "__proto__")) eqn:E; [split; assumption |].
  split; [apply nodup_put; assumption |].
  rewrite keys_put; intros [Hk | Hi]; [| contradiction].
  rewrite <- Hk, streq_refl in E; discriminate.
Qed.

Lemma wellKeyed_fold (pieces : list jsstring) (o : JsObject.t) :
  wellKeyed o -> wellKeyed (fold_left parseStep pieces o).
Proof.
  revert o; induction pieces as [| p pieces IH]; intros o H; [exact H |].
  cbn [fold_left]; apply IH; unfold parseStep; apply wellKeyed_assign; exact H.
Qed.

(** X5: whatever the raw cookie string holds, the object of [getAll] has
    each name once, and never the key [__proto__]. *)
Theorem getAll_names_unique (cookieString : jsstring) :
  NoDup (map fst (parseAll cookieString)) /\
  ~ In (lit "__proto__") (map fst (parseAll cookieString)).
Proof.
  assert (E : wellKeyed []) by (split; [constructor | intros []]).
  unfold parseAll; destruct cookieString; [exact E |].
  apply wellKeyed_fold; exact E.
Qed.

(** X6: on a raw cookie string of percent-encoded pairs and for every
    name but [__proto__], [check(name)] is true exactly when the object of
    [getAll] has an own property of that name, and the own property holds
    the value of the last cookie of that name.  [getAll()[name]] is that
    value; where no cookie has the name it is [undefined], except for the
    names of the members of [Object.prototype] ([toString], [constructor],
    ...), for which it is the inherited member. *)
Theorem check_agrees_with_getAll (cookies : list (jsstring * jsstring))
    (cookieString name encodedName : jsstring) :
  rawCookieString cookies = Some cookieString ->
  encodeURIComponent name = Some encodedName ->
  name <> lit "__proto__" ->
  JsObject.get name (parseAll cookieString) = lastValue name cookies /\
  checkIn cookieString name
  = Normal (isSome (JsObject.get name (parseAll cookieString))) /\
  JsObject.read name (parseAll cookieString)
  = match lastValue name cookies with
    | Some last => JsObject.Own last
    | None => if existsb (streq name) JsObject.prototypeNames
              then JsObject.Inherited name
              else JsObject.Undefined
    end.
Proof.
  unfold rawCookieString; intros Hraw Hen Hname.
  destruct (encodeCookies cookies) as [pairs |] eqn:Hp; [| discriminate].
  injection Hraw as <-.
  assert (G : JsObject.get name (parseAll (joinPairs pairs))
              = lastValue name cookies).
  { rewrite parseAll_joined by (eapply encodeCookies_tokens; eassumption).
    rewrite (fold_decoded _ _ _ Hp), get_fold_assign by assumption.
    destruct (lastValue name cookies); reflexivity. }
  split; [exact G |]; split; [| unfold JsObject.read; rewrite G; reflexivity].
  rewrite G, <- MatcherCoverage.isSome_first_last.
  rewrite (checkIn_encoded _ _ _ Hen); unfold test, exec; cbn [literal].
  rewrite (MatcherCoverage.search_raw _ _ _ _ Hp Hen).
  destruct (firstValue name cookies) as [v |] eqn:F; [| reflexivity].
  destruct (firstValue_value_encodable _ _ _ _ Hp F) as [ev ->]; reflexivity.
Qed.

Lemma check_agrees_with_getAll_witness :
  (JsObject.read (lit "toString") (parseAll (lit "x=1; z=2"))
   = JsObject.Inherited (lit "toString") /\
   checkIn (lit "x=1; z=2") (lit "toString") = Normal false) /\
  (JsObject.read (lit "z") (parseAll (lit "x=1; z=2")) = JsObject.Own (lit "2") /\
   checkIn (lit "x=1; z=2") (lit "z") = Normal true).
Proof.
  split.
  - destruct (check_agrees_with_getAll [(lit "x", lit "1"); (lit "z", lit "2")]
                (lit "x=1; z=2") (lit "toString") (lit "toString")
                eq_refl eq_refl) as (G & C & R).
    + intros E; discriminate E.
    + split; [exact R | rewrite C, G; reflexivity].
  - destruct (check_agrees_with_getAll [(lit "x", lit "1"); (lit "z", lit "2")]
                (lit "x=1; z=2") (lit "z") (lit "z") eq_refl eq_refl)
      as (G & C & R).
    + intros E; discriminate E.
    + split; [exact R | rewrite C, G; reflexivity].
Defined.

Lemma split_nonempty (k : Z) (s : jsstring) : split k s <> [].
Proof.
  destruct s as [| c r]; cbn [split]; [discriminate |].
  destruct (c =? k); [discriminate |]; destruct (split k r); discriminate.
Qed.

Lemma split_snoc (k : Z) (s : jsstring) :
  split k (s ++ [k]) = split k s ++ [[]].
Proof.
  induction s as [| c s IH]; cbn [app split].
  - rewrite Z.eqb_refl; reflexivity.
  - destruct (c =? k); rewrite IH; [reflexivity |].
    pose proof (split_nonempty k s) as N.
    destruct (split k s); [contradiction | reflexivity].
Qed.

(** X7: a raw cookie string that ends in [;] gives one more entry: the
    empty name, bound to the text [undefined]. *)
Theorem getAll_trailing_semicolon (cookieString : jsstring) :
  cookieString <> [] ->
  parseAll (cookieString ++ lit ";")
  = JsObject.assign [] (lit "undefined") (parseAll cookieString).
Proof.
  intros H; change (lit ";") with [59]; unfold parseAll.
  destruct cookieString as [| c r]; [contradiction |].
  rewrite <- app_comm_cons, app_comm_cons, split_snoc, fold_left_app.
  reflexivity.
Qed.

Lemma getAll_trailing_semicolon_witness :
  parseAll (lit "a=1;") = [(lit "a", lit "1"); ([], lit "undefined")].
Proof.
  apply (getAll_trailing_semicolon (lit "a=1")); intros E; discriminate E.
Defined.

(** X8: a piece of the raw cookie string without [=] is taken as a name
    and bound to the text [undefined] (the value is missing, and the
    decoder turns it into a string). *)
Theorem getAll_piece_without_equals (piece : jsstring) :
  piece <> [] -> ~ In 59 piece -> ~ In 61 piece ->
  parseAll piece
  = JsObject.assign (safeDecodeURIComponent (stripLeadingSpace piece))
                    (lit "undefined") [].
Proof.
  intros Hn Hs He; unfold parseAll.
  destruct piece as [| c r] eqn:E; [contradiction |]; rewrite <- E.
  rewrite (DuplicateFacts.split_whole 59) by (subst; assumption).
  cbn [fold_left]; unfold parseStep.
  rewrite (DuplicateFacts.split_whole 61) by (subst; assumption).
  reflexivity.
Qed.

Lemma getAll_piece_without_equals_witness :
  parseAll (lit "flag") = [(lit "flag", lit "undefined")].
Proof.
  apply (getAll_piece_without_equals (lit "flag")).
  - intros E; discriminate E.
  - cbn; intuition discriminate.
  - cbn; intuition discriminate.
Defined.

End GetAllCoverage.

(** ** More on [set]: the builder and the call shapes *)

Module BuilderCoverage.
Import URI URIFacts RegExp RegExpFacts ParserFacts DuplicateFacts ServiceFacts BuilderFacts.

(** The attributes after [name=value;], as the builder lays them out. *)
Lemma cookieStringOf_shape (now : Z) (name value : jsstring) (options : Options)
    (cookieString : jsstring) (warnings : list jsstring) :
  cookieStringOf now name value options = Normal (cookieString, warnings) ->
  exists en ev rest,
    encodeURIComponent name = Some en /\
    encodeURIComponent value = Some ev /\
    cookieString = en ++ 61 :: ev ++ 59 :: rest /\
    warnings = (if coerced options then [warningText name] else []).
Proof.
  unfold cookieStringOf.
  destruct (encodeURIComponent name) as [en |]; [| discriminate].
  destruct (encodeURIComponent value) as [ev |]; [| discriminate].
  intros [= <- <-]; exists en, ev; eexists; repeat split; reflexivity.
Qed.

(** X9: whatever attributes a cookie is built with, [get] of its name on
    the built string returns its value: the attributes come after the
    first [;] and the name is found at the start. *)
Theorem get_of_built_cookie_any_attributes (now : Z) (name value : jsstring)
    (options : Options) (cookieString : jsstring) (warnings : list jsstring) :
  cookieStringOf now name value options = Normal (cookieString, warnings) ->
  getIn cookieString name = Normal value.
Proof.
  intros H; apply cookieStringOf_shape in H
    as (en & ev & rest & Hn & Hv & -> & _).
  rewrite (getIn_encoded _ _ _ Hn).
  rewrite search_head by (apply token_plain; eapply encode_token; eassumption).
  f_equal; destruct ev as [| c r].
  - symmetry; apply encode_nil; assumption.
  - apply safeDecode_encoded; assumption.
Qed.

Lemma get_of_built_cookie_any_attributes_witness :
  getIn (lit "k=v%3B;expires=Fri, 02 Jan 1970 00:00:00 GMT;path=/k=x;secure;sameSite=None;Partitioned;")
        (lit "k")
  = Normal (lit "v;").
Proof.
  apply (get_of_built_cookie_any_attributes 0 (lit "k") (lit "v;")
           {| expires := Some (ExpNumber 1); path := Some (lit "/k=x");
              domain := None; secure := Some false; sameSite := Some None_;
              partitioned := Some true |} _ [warningText (lit "k")]).
  reflexivity.
Defined.

(** X10: every cookie string that is built holds [sameSite=...;], with
    [Lax] where the attribute is not given. *)
Theorem sameSite_always_emitted (now : Z) (name value : jsstring)
    (options : Options) (cookieString : jsstring) (warnings : list jsstring) :
  cookieStringOf now name value options = Normal (cookieString, warnings) ->
  includes (lit "sameSite=" ++
            sameSiteText match sameSite options with
                         | Some x => x
                         | None => Lax
                         end ++ lit ";")
           cookieString = true.
Proof.
  unfold cookieStringOf.
  destruct (encodeURIComponent name) as [en |]; [| discriminate].
  destruct (encodeURIComponent value) as [ev |]; [| discriminate].
  intros [= <- _].
  eapply (includes_at _ _
            (en ++ lit "=" ++ ev ++ lit ";" ++
             expiresPart now (expires options) ++
             (if truthyString (path options)
              then lit "path=" ++ toStringOrUndefined (path options) ++ lit ";"
              else []) ++
             (if truthyString (domain options)
              then lit "domain=" ++ toStringOrUndefined (domain options) ++ lit ";"
              else []) ++
             (if truthyBool (if coerced options then Some true else secure options)
              then lit "secure;" else []))).
  rewrite <- !app_assoc; reflexivity.
Qed.

Lemma sameSite_always_emitted_witness :
  includes (lit "sameSite=Lax;") (lit "x=y;path=/;sameSite=Lax;") = true.
Proof.
  apply (sameSite_always_emitted 0 (lit "x") (lit "y")
           {| expires := None; path := Some (lit "/"); domain := None;
              secure := None; sameSite := None; partitioned := None |}
           _ []).
  reflexivity.
Defined.

(** X11: a day count that takes the expiry beyond the range of a [Date]
    (8.64e15 ms either side of the epoch) does not fail: the string holds
    [expires=Invalid Date;]. *)
Theorem expires_out_of_range (now days : Z) (name value : jsstring)
    (options : Options) (cookieString : jsstring) (warnings : list jsstring) :
  Z.abs now <= 8640000000000000 ->
  expires options = Some (ExpNumber days) ->
  8640000000000000 < Z.abs (now + days * 86400000) ->
  cookieStringOf now name value options = Normal (cookieString, warnings) ->
  includes (lit "expires=Invalid Date;") cookieString = true.
Proof.
  intros Hnow He Hr H.
  pose proof (expires_emitted now name value options cookieString warnings H)
    as E.
  rewrite He in E.
  replace (days * 86400 * 1000) with (days * 86400000) in E by lia.
  unfold JsDate.timeClip in E.
  destruct (Z.leb_spec (Z.abs (now + days * 86400000)) 8640000000000000);
    [lia |].
  apply E; intros ->; lia.
Qed.

Lemma expires_out_of_range_witness :
  includes (lit "expires=Invalid Date;")
           (lit "x=y;expires=Invalid Date;sameSite=Lax;") = true.
Proof.
  apply (expires_out_of_range 1700000000000 100000000 (lit "x") (lit "y")
           {| expires := Some (ExpNumber 100000000); path := None;
              domain := None; secure := None; sameSite := None;
              partitioned := None |} _ []);
    try reflexivity; lia.
Defined.

Section Dispatch.

Context {Document : Type}.
Variable documentCookie : Document -> jsstring.
Variable assignCookie : jsstring -> Document -> Document.

Lemma write_console (svc : Service Document) (cookieString : jsstring) :
  console (stateOf (write assignCookie svc cookieString)) = console svc.
Proof.
  unfold write; destruct (documentIsAccessible svc); [reflexivity |].
  destruct (responseInit svc) as [[h |] |]; try reflexivity.
  destruct (Headers.set _ _ h); reflexivity.
Qed.

(** X12: [set] prints the warning exactly when [secure] is [false] and
    [sameSite] is ['None']; any other call that builds a string leaves the
    console as it was, whether or not the write then fails. *)
Theorem set_warns_only_on_coercion (svc : Service Document) (now : Z)
    (name value encodedName encodedValue : jsstring) (options : Options) :
  encodeURIComponent name = Some encodedName ->
  encodeURIComponent value = Some encodedValue ->
  console (stateOf (setOptions assignCookie svc now name value (Some options)))
  = console svc ++
    match secure options, sameSite options with
    | Some false, Some None_ => [warningText name]
    | _, _ => []
    end.
Proof.
  intros Hn Hv; rewrite setOptions_setWith; unfold setWith, cookieStringOf.
  rewrite Hn, Hv, write_console; unfold coerced; cbn [warn console].
  destruct (secure options) as [[|] |], (sameSite options) as [[| |] |];
    reflexivity.
Qed.

(** X13: when the name or the value cannot be percent-encoded, [set]
    throws a URIError before anything else: nothing is written, nothing is
    printed, whatever the other arguments are. *)
Theorem set_bad_string_changes_nothing (svc : Service Document) (now : Z)
    (name value : jsstring) (expiresOrOptions : ExpiresOrOptions)
    (path domain : option jsstring) (secure : option bool)
    (sameSite : option SameSite) (partitioned : option bool) :
  encodeURIComponent name = None \/ encodeURIComponent value = None ->
  set assignCookie svc now name value expiresOrOptions path domain secure
      sameSite partitioned
  = Threw URIError svc.
Proof.
  intros H.
  assert (E : forall o, cookieStringOf now name value o = Throw URIError).
  { intros o; unfold cookieStringOf.
    destruct H as [-> | ->]; [reflexivity |].
    destruct (encodeURIComponent name); reflexivity. }
  unfold set, setWith.
  destruct (attributeLike expiresOrOptions path domain secure sameSite);
    [destruct expiresOrOptions |]; rewrite E; reflexivity.
Qed.

(** X14: on the server, when there is no response or the response has no
    headers, [set] builds the string (and warns if it has to) but writes
    nowhere and returns normally. *)
Theorem set_without_response_headers (svc : Service Document) (now : Z)
    (name value : jsstring) (options : Options) (cookieString : jsstring)
    (warnings : list jsstring) :
  documentIsAccessible svc = false ->
  responseInit svc = None \/ responseInit svc = Some None ->
  cookieStringOf now name value options = Normal (cookieString, warnings) ->
  setOptions assignCookie svc now name value (Some options)
  = Returned (warn svc warnings).
Proof.
  intros Hd Hr Hc; rewrite setOptions_setWith; unfold setWith; rewrite Hc.
  unfold write; cbn [warn documentIsAccessible responseInit]; rewrite Hd.
  destruct Hr as [-> | ->]; reflexivity.
Qed.

(** X15: a positional call is the call with the attributes object made of
    its arguments ([sameSite] defaulting to ['Lax']) as soon as [expires] is
    given or one of [path], [domain], [secure], [sameSite] is truthy;
    otherwise it is the call without attributes, and all its positional
    arguments are ignored. *)
Theorem positional_call_as_object_call (svc : Service Document) (now : Z)
    (name value : jsstring) (expires : option Expires)
    (path domain : option jsstring) (secure : option bool)
    (sameSite : option SameSite) (partitioned : option bool) :
  setPositional assignCookie svc now name value expires path domain secure
    sameSite partitioned
  = if isSome expires || truthyString path || truthyString domain ||
       truthyBool secure || isSome sameSite
    then setOptions assignCookie svc now name value
           (Some {| expires := expires;
                    path := path;
                    domain := domain;
                    secure := secure;
                    sameSite :=
                      Some match sameSite with Some x => x | None => Lax end;
                    partitioned := partitioned |})
    else setOptions assignCookie svc now name value None.
Proof.
  unfold setPositional, setOptions, set.
  destruct expires as [[days | d] |]; cbn [attributeLike isSome orb];
    reflexivity.
Qed.

End Dispatch.

Lemma set_warns_only_on_coercion_witness :
  console (stateOf (setOptions noAssignCookie (serverInstance None []) 0
                      (lit "x") (lit "y")
                      (Some {| expires := None; path := None; domain := None;
                               secure := Some false; sameSite := Some Strict;
                               partitioned := None |})))
  = [].
Proof.
  apply (set_warns_only_on_coercion noAssignCookie (serverInstance None []) 0
           (lit "x") (lit "y") (lit "x") (lit "y")); reflexivity.
Defined.

Lemma set_bad_string_changes_nothing_witness :
  set noAssignCookie (serverInstance None []) 0 (lit "x") [56832]
      (EONumber 1) (Some (lit "/")) None (Some false) (Some None_) None
  = Threw URIError (serverInstance None []).
Proof.
  apply (set_bad_string_changes_nothing noAssignCookie); right; reflexivity.
Defined.

Lemma set_without_response_headers_witness :
  setOptions noAssignCookie
    {| documentIsAccessible := false; document := tt; request := None;
       responseInit := None; console := [] |}
    0 (lit "x") (lit "y") (Some noOptions)
  = Returned {| documentIsAccessible := false; document := tt; request := None;
                responseInit := None; console := [] |}.
Proof.
  apply (set_without_response_headers noAssignCookie
           {| documentIsAccessible := false; document := tt; request := None;
              responseInit := None; console := [] |}
           0 (lit "x") (lit "y") noOptions (lit "x=y;sameSite=Lax;") []);
    auto.
Defined.

End BuilderCoverage.

(** ** More on the server: the response headers, [delete], [deleteAll] *)

Module ServerCoverage.
Import URI URIFacts RegExp RegExpFacts ParserFacts DuplicateFacts ServiceFacts HeadersFacts BuilderFacts.

Lemma validValue_app (a b : jsstring) :
  Headers.validValue (a ++ b) = Headers.validValue a && Headers.validValue b.
Proof. apply forallb_app. Qed.

Lemma valid_range (s : jsstring) :
  Forall (fun c => 32 <= c <= 126) s -> Headers.validValue s = true.
Proof.
  intros H; unfold Headers.validValue; apply forallb_forall.
  rewrite Forall_forall in H; intros c Hc; specialize (H c Hc).
  zdec; reflexivity.
Qed.

Lemma valid_encoded (v ev : jsstring) :
  encodeURIComponent v = Some ev -> Headers.validValue ev = true.
Proof.
  intros H; apply valid_range.
  eapply Forall_impl; [| apply (encode_chars _ _ H)].
  intros c Hc; apply uriChar_bound in Hc; lia.
Qed.

Lemma valid_digit (n : Z) : 32 <= JsDate.digit n <= 126.
Proof.
  unfold JsDate.digit; pose proof (Z.mod_pos_bound n 10 eq_refl); lia.
Qed.

Lemma range_app (a b : jsstring) :
  Forall (fun c => 32 <= c <= 126) a -> Forall (fun c => 32 <= c <= 126) b ->
  Forall (fun c => 32 <= c <= 126) (a ++ b).
Proof. intros; apply Forall_app; split; assumption. Qed.


Lemma range_closed (s : jsstring) :
  forallb (fun c => (32 <=? c) && (c <=? 126)) s = true ->
  Forall (fun c => 32 <= c <= 126) s.
Proof.
  intros H; rewrite forallb_forall in H; apply Forall_forall; intros c Hc.
  specialize (H c Hc); apply andb_true_iff in H as [A B].
  apply Z.leb_le in A; apply Z.leb_le in B; lia.
Qed.

Lemma range_dayName (i : nat) :
  Forall (fun c => 32 <= c <= 126) (lit (nth i JsDate.dayNames ""%string)).
Proof.
  do 7 (destruct i as [| i]; [apply range_closed; reflexivity |]).
  destruct i; constructor.
Qed.

Lemma range_monthName (i : nat) :
  Forall (fun c => 32 <= c <= 126) (lit (nth i JsDate.monthNames ""%string)).
Proof.
  do 12 (destruct i as [| i]; [apply range_closed; reflexivity |]).
  destruct i; constructor.
Qed.

Lemma range_twoDigits (n : Z) :
  Forall (fun c => 32 <= c <= 126) (JsDate.twoDigits n).
Proof. unfold JsDate.twoDigits; repeat constructor; apply valid_digit. Qed.

Lemma range_paddedYear (y : Z) :
  Forall (fun c => 32 <= c <= 126) (JsDate.paddedYear y).
Proof.
  unfold JsDate.paddedYear.
  destruct (100000 <=? y), (10000 <=? y); cbn [app];
    repeat constructor; apply valid_digit.
Qed.

Lemma range_toUTCString (d : JsDate.t) :
  Forall (fun c => 32 <= c <= 126) (JsDate.toUTCString d).
Proof.
  destruct d as [tv |]; cbn [JsDate.toUTCString];
    [| apply range_closed; reflexivity].
  destruct (JsDate.civil (tv / JsDate.msPerDay)) as [[y m] dd].
  repeat (apply range_app;
          [first [ apply range_dayName | apply range_monthName
                 | apply range_twoDigits | apply range_paddedYear
                 | destruct (y <? 0); apply range_closed; reflexivity
                 | apply range_closed; reflexivity ] |]).
  apply range_closed; reflexivity.
Qed.

Lemma stripLeading_head (c : Z) (s : jsstring) :
  Headers.httpWhitespace c = false ->
  Headers.stripLeading (c :: s) = c :: s.
Proof. intros H; cbn [Headers.stripLeading]; rewrite H; reflexivity. Qed.

Lemma normalize_id (c : Z) (x : jsstring) :
  Headers.httpWhitespace c = false ->
  Headers.normalize (c :: x ++ [59]) = c :: x ++ [59].
Proof.
  intros Hc; unfold Headers.normalize; rewrite stripLeading_head by assumption.
  rewrite app_comm_cons, rev_unit, stripLeading_head by reflexivity.
  rewrite <- (rev_unit (c :: x) 59), rev_involutive; reflexivity.
Qed.

Lemma token_head_no_httpWhitespace (en rest : jsstring) :
  token en ->
  exists c x, en ++ 61 :: rest = c :: x /\ Headers.httpWhitespace c = false.
Proof.
  intros H; destruct en as [| c en]; cbn [app].
  - exists 61, rest; split; reflexivity.
  - exists c, (en ++ 61 :: rest); split; [reflexivity |].
    inversion H as [| ? ? (_ & _ & _ & Hw) _]; subst.
    revert Hw; unfold isWhiteSpace, Headers.httpWhitespace; zdec;
      intros; try discriminate; reflexivity.
Qed.

(** The text of the built string, part by part. *)
Lemma cookieStringOf_text (now : Z) (name value : jsstring) (options : Options)
    (cookieString : jsstring) (warnings : list jsstring) :
  cookieStringOf now name value options = Normal (cookieString, warnings) ->
  exists en ev,
    encodeURIComponent name = Some en /\
    encodeURIComponent value = Some ev /\
    cookieString
    = en ++ lit "=" ++ ev ++ lit ";" ++
      expiresPart now (expires options) ++
      (if truthyString (path options)
       then lit "path=" ++ toStringOrUndefined (path options) ++ lit ";"
       else []) ++
      (if truthyString (domain options)
       then lit "domain=" ++ toStringOrUndefined (domain options) ++ lit ";"
       else []) ++
      (if truthyBool (if coerced options then Some true else secure options)
       then lit "secure;" else []) ++
      lit "sameSite=" ++
      sameSiteText match sameSite options with
                   | Some x => x
                   | None => Lax
                   end ++
      lit ";" ++
      (if truthyBool (partitioned options) then lit "Partitioned;" else []).
Proof.
  unfold cookieStringOf.
  destruct (encodeURIComponent name) as [en |]; [| discriminate].
  destruct (encodeURIComponent value) as [ev |]; [| discriminate].
  intros H; exists en, ev; repeat split.
  injection H as <- _; reflexivity.
Qed.

Lemma valid_expiresPart (now : Z) (e : option Expires) :
  Headers.validValue (expiresPart now e) = true.
Proof.
  assert (D : forall d,
             Forall (fun c => 32 <= c <= 126)
                    (lit "expires=" ++ JsDate.toUTCString d ++ lit ";")).
  { intros d; apply range_app; [apply range_closed; reflexivity |].
    apply range_app; [apply range_toUTCString | apply range_closed; reflexivity]. }
  apply valid_range; destruct e as [[days | dt] |]; cbn [expiresPart].
  - destruct (days =? 0); [constructor | apply D].
  - apply D.
  - constructor.
Qed.

(** The built string is fit for a header as it is. *)
Lemma cookieStringOf_valid (now : Z) (name value : jsstring) (options : Options)
    (cookieString : jsstring) (warnings : list jsstring) :
  (forall p, path options = Some p -> Headers.validValue p = true) ->
  (forall d, domain options = Some d -> Headers.validValue d = true) ->
  cookieStringOf now name value options = Normal (cookieString, warnings) ->
  Headers.validValue cookieString = true /\
  Headers.normalize cookieString = cookieString.
Proof.
  intros Hp Hd H.
  apply cookieStringOf_text in H as (en & ev & Hn & Hv & ->); split.
  - rewrite !validValue_app, (valid_encoded _ _ Hn), (valid_encoded _ _ Hv),
      valid_expiresPart.
    destruct (path options) as [[| c p] |], (domain options) as [[| c' d] |];
      cbn [truthyString toStringOrUndefined];
      rewrite ?validValue_app, ?(Hp _ eq_refl), ?(Hd _ eq_refl);
      destruct (truthyBool (if coerced options then Some true else secure options)),
        (sameSite options) as [[| |] |], (truthyBool (partitioned options));
      reflexivity.
  - set (body := expiresPart now (expires options) ++
                 (if truthyString (path options)
                  then lit "path=" ++ toStringOrUndefined (path options) ++ lit ";"
                  else []) ++
                 (if truthyString (domain options)
                  then lit "domain=" ++ toStringOrUndefined (domain options) ++ lit ";"
                  else []) ++
                 (if truthyBool (if coerced options then Some true
                                 else secure options)
                  then lit "secure;" else []) ++
                 lit "sameSite=" ++
                 sameSiteText match sameSite options with
                              | Some x => x
                              | None => Lax
                              end).
    assert (E : exists y,
               en ++ lit "=" ++ ev ++ lit ";" ++ body ++ lit ";" ++
               (if truthyBool (partitioned options) then lit "Partitioned;"
                else [])
               = (en ++ 61 :: y) ++ [59]).
    { destruct (truthyBool (partitioned options)).
      - exists (ev ++ lit ";" ++ body ++ lit ";Partitioned").
        change (lit "=" ++ ?x) with (61 :: x).
        change (lit ";Partitioned") with (lit ";" ++ lit "Partitioned").
        change (lit "Partitioned;") with (lit "Partitioned" ++ [59]).
        repeat (rewrite <- app_assoc || rewrite <- app_comm_cons); reflexivity.
      - exists (ev ++ lit ";" ++ body).
        change (lit "=" ++ ?x) with (61 :: x).
        rewrite app_nil_r.
        repeat (rewrite <- app_assoc || rewrite <- app_comm_cons); reflexivity. }
    destruct E as [y E].
    destruct (token_head_no_httpWhitespace en y (encode_token _ _ Hn))
      as (c & x & Hcx & Hc).
    rewrite Hcx in E; unfold body in E; rewrite <- !app_assoc in E.
    rewrite E; apply normalize_id; assumption.
Qed.

Lemma get_after_set (name value : jsstring) (h h' : Headers.t) :
  Headers.set name value h = Some h' ->
  Headers.get name h' = Some (Headers.normalize value).
Proof.
  intros H; destruct (set_single _ _ _ _ H) as [n Hn].
  unfold Headers.get; rewrite Hn; reflexivity.
Qed.

Section Server.

Context {Document : Type}.
Variable documentCookie : Document -> jsstring.
Variable assignCookie : jsstring -> Document -> Document.

(** X16: on the server with response headers, a [set] whose [path] and
    [domain] are fit for a header (bytes without NUL, CR and LF) returns
    normally, and the headers then give back, under [Set-Cookie], exactly
    the string that was built; the document and the request are as before. *)
Theorem server_set_stores_built_string (svc : Service Document) (now : Z)
    (name value : jsstring) (options : Options) (headers : Headers.t)
    (cookieString : jsstring) (warnings : list jsstring) :
  documentIsAccessible svc = false ->
  responseInit svc = Some (Some headers) ->
  (forall p, path options = Some p -> Headers.validValue p = true) ->
  (forall d, domain options = Some d -> Headers.validValue d = true) ->
  cookieStringOf now name value options = Normal (cookieString, warnings) ->
  exists headers',
    setOptions assignCookie svc now name value (Some options)
    = Returned {| documentIsAccessible := false;
                  document := document svc;
                  request := request svc;
                  responseInit := Some (Some headers');
                  console := console svc ++ warnings |} /\
    Headers.get (lit "Set-Cookie") headers' = Some cookieString.
Proof.
  intros Hd Hr Hp Hdm Hc.
  destruct (cookieStringOf_valid _ _ _ _ _ _ Hp Hdm Hc) as [Hv Hnorm].
  rewrite setOptions_setWith; unfold setWith; rewrite Hc.
  unfold write; cbn [warn documentIsAccessible responseInit document request
                      console]; rewrite Hd, Hr.
  destruct (Headers.set (lit "Set-Cookie") cookieString headers) as [h' |] eqn:E.
  - exists h'; split; [reflexivity |].
    rewrite (get_after_set _ _ _ _ E), Hnorm; reflexivity.
  - unfold Headers.set in E; rewrite Hnorm, Hv in E; discriminate E.
Qed.

(** X17: [delete] builds, whatever the clock says, a cookie with an empty
    value that expired one second after the epoch, and writes it as [set]
    does; [get] of the name on that string is empty. *)
Theorem delete_writes_expired_cookie (svc : Service Document)
    (name encodedName : jsstring) (path domain : option jsstring)
    (secure : option bool) (sameSite : option SameSite) :
  encodeURIComponent name = Some encodedName ->
  exists rest warnings,
    getIn (encodedName ++ lit "=;expires=Thu, 01 Jan 1970 00:00:01 GMT;" ++ rest)
          name = Normal [] /\
    forall now,
      delete assignCookie svc now name path domain secure sameSite
      = write assignCookie (warn svc warnings)
          (encodedName ++ lit "=;expires=Thu, 01 Jan 1970 00:00:01 GMT;" ++ rest).
Proof.
  intros Hn.
  set (options := {| expires := Some (ExpDate expiresDate);
                     path := path; domain := domain; secure := secure;
                     sameSite := Some match sameSite with
                                      | Some x => x
                                      | None => Lax
                                      end;
                     partitioned := None |}).
  assert (E : exists rest, forall now,
             cookieStringOf now name [] options
             = Normal (encodedName ++
                       lit "=;expires=Thu, 01 Jan 1970 00:00:01 GMT;" ++ rest,
                       if coerced options then [warningText name] else [])).
  { eexists; intros now; unfold cookieStringOf; rewrite Hn.
    cbn [encodeURIComponent expires options expiresPart app].
    change (JsDate.toUTCString expiresDate)
      with (lit "Thu, 01 Jan 1970 00:00:01 GMT").
    reflexivity. }
  destruct E as [rest E].
  exists rest, (if coerced options then [warningText name] else []); split.
  - rewrite (getIn_encoded _ _ _ Hn).
    change (lit "=;expires=Thu, 01 Jan 1970 00:00:01 GMT;" ++ rest)
      with (61 :: [] ++ 59 :: lit "expires=Thu, 01 Jan 1970 00:00:01 GMT;" ++ rest).
    rewrite search_head by constructor; reflexivity.
  - intros now; unfold delete, set; cbn [attributeLike truthyString truthyBool
                                          isSome orb].
    unfold setWith; fold options; rewrite (E now); reflexivity.
Qed.

Lemma keys_nonempty (k v : jsstring) (o : JsObject.t) :
  JsObject.get k o = Some v -> JsObject.arrayIndex k = None ->
  JsObject.keys o <> [].
Proof.
  intros G A; unfold JsObject.keys.
  assert (I : In k (filter (fun k0 => match JsObject.arrayIndex k0 with
                                      | Some _ => false
                                      | None => true
                                      end) (map fst o))).
  { apply filter_In; split; [| rewrite A; reflexivity].
    induction o as [| [k' v'] o IH]; cbn [JsObject.get] in G; [discriminate |].
    destruct (streq k k') eqn:E.
    - apply streq_eq in E; subst; left; reflexivity.
    - right; apply IH; assumption. }
  intros N; apply app_eq_nil in N as [_ N]; rewrite N in I; contradiction.
Qed.

(** X18: when a cookie is called [hasOwnProperty], [deleteAll] throws a
    TypeError at the first turn of its loop (the name shadows the method
    it calls) and deletes nothing. *)
Theorem deleteAll_throws_on_hasOwnProperty (svc : Service Document) (now : Z)
    (path domain : option jsstring) (secure : option bool)
    (sameSite : option SameSite) (v : jsstring) :
  JsObject.get (lit "hasOwnProperty") (getAll documentCookie svc) = Some v ->
  deleteAll documentCookie assignCookie svc now path domain secure sameSite
  = Threw TypeError svc.
Proof.
  intros G; unfold deleteAll.
  pose proof (keys_nonempty _ _ _ G eq_refl) as N.
  destruct (JsObject.keys (getAll documentCookie svc)); [contradiction |].
  rewrite G; reflexivity.
Qed.

Lemma search_empty (en : jsstring) : search true en [] = None.
Proof. destruct en; reflexivity. Qed.

(** X19: on the server, when there is no request or the request has no
    [Cookie] header, the raw cookie string is empty: for every name that
    can be encoded [check] is false and [get] is empty, [getAll] is the
    empty object, and [deleteAll] does nothing. *)
Theorem server_without_cookies (svc : Service Document)
    (name encodedName : jsstring) (now : Z) (path domain : option jsstring)
    (secure : option bool) (sameSite : option SameSite) :
  documentIsAccessible svc = false ->
  (request svc = None \/
   exists headers, request svc = Some headers /\
                   Headers.get (lit "cookie") headers = None) ->
  encodeURIComponent name = Some encodedName ->
  check documentCookie svc name = Normal false /\
  get documentCookie svc name = Normal [] /\
  getAll documentCookie svc = [] /\
  deleteAll documentCookie assignCookie svc now path domain secure sameSite
  = Returned svc.
Proof.
  intros Hd Hr Hn.
  assert (C : cookie documentCookie svc = []).
  { unfold cookie; rewrite Hd.
    destruct Hr as [-> | (h & -> & ->)]; reflexivity. }
  unfold check, get, getAll, deleteAll, getAll; rewrite C.
  rewrite (checkIn_encoded _ _ _ Hn), (getIn_encoded _ _ _ Hn).
  unfold test, exec; cbn [literal]; rewrite search_empty.
  repeat split.
Qed.

End Server.

Lemma server_set_stores_built_string_witness :
  exists headers',
    setOptions noAssignCookie
      (serverInstance None [(lit "set-cookie", lit "old=1")])
      0 (lit "x") (lit "y")
      (Some {| expires := Some (ExpNumber 1); path := Some (lit "/");
               domain := None; secure := None; sameSite := None;
               partitioned := None |})
    = Returned {| documentIsAccessible := false;
                  document := tt;
                  request := Some [];
                  responseInit := Some (Some headers');
                  console := [] |} /\
    Headers.get (lit "Set-Cookie") headers'
    = Some (lit "x=y;expires=Fri, 02 Jan 1970 00:00:00 GMT;path=/;sameSite=Lax;").
Proof.
  apply (server_set_stores_built_string noAssignCookie
           (serverInstance None [(lit "set-cookie", lit "old=1")])
           0 (lit "x") (lit "y")
           {| expires := Some (ExpNumber 1); path := Some (lit "/");
              domain := None; secure := None; sameSite := None;
              partitioned := None |}
           [(lit "set-cookie", lit "old=1")] _ []);
    try reflexivity.
  - intros p [= <-]; reflexivity.
  - intros d E; discriminate E.
Defined.

Lemma delete_writes_expired_cookie_witness :
  exists rest warnings,
    getIn (lit "sid" ++ lit "=;expires=Thu, 01 Jan 1970 00:00:01 GMT;" ++ rest)
          (lit "sid") = Normal [] /\
    forall now,
      delete noAssignCookie (serverInstance None []) now (lit "sid")
        (Some (lit "/")) None None None
      = write noAssignCookie (warn (serverInstance None []) warnings)
          (lit "sid" ++ lit "=;expires=Thu, 01 Jan 1970 00:00:01 GMT;" ++ rest).
Proof.
  apply (delete_writes_expired_cookie noAssignCookie (serverInstance None [])
           (lit "sid") (lit "sid")).
  reflexivity.
Defined.

Lemma deleteAll_throws_on_hasOwnProperty_witness :
  deleteAll noDocumentCookie noAssignCookie
    (serverInstance (Some (lit "a=1; hasOwnProperty=x")) []) 0
    None None None None
  = Threw TypeError (serverInstance (Some (lit "a=1; hasOwnProperty=x")) []).
Proof.
  apply (deleteAll_throws_on_hasOwnProperty noDocumentCookie noAssignCookie
           _ 0 None None None None (lit "x")).
  reflexivity.
Defined.

Lemma server_without_cookies_witness :
  check noDocumentCookie (serverInstance None []) (lit "a") = Normal false /\
  get noDocumentCookie (serverInstance None []) (lit "a") = Normal [] /\
  getAll noDocumentCookie (serverInstance None []) = [] /\
  deleteAll noDocumentCookie noAssignCookie (serverInstance None []) 0
    None None None None
  = Returned (serverInstance None []).
Proof.
  apply (server_without_cookies noDocumentCookie noAssignCookie
           (serverInstance None []) (lit "a") (lit "a") 0 None None None None).
  - reflexivity.
  - right; exists []; split; reflexivity.
  - reflexivity.
Defined.

End ServerCoverage.

(** ** The security coercion of [set] *)

Module CoercionFacts.
Import URI URIFacts ServiceFacts HeadersFacts BuilderFacts ServerCoverage.

Section Coercion.

Context {Document : Type}.
Variable assignCookie : jsstring -> Document -> Document.

(** A warning printed before a write does not change what the write does. *)
Lemma write_warn (svc : Service Document) (texts : list jsstring)
    (cookieString : jsstring) :
  write assignCookie (warn svc texts) cookieString
  = match write assignCookie svc cookieString with
    | Returned svc' => Returned (warn svc' texts)
    | Threw e svc' => Threw e (warn svc' texts)
    end.
Proof.
  destruct svc as [accessible doc req [[headers |] |] printed];
    unfold write, warn;
    cbn [documentIsAccessible responseInit document request console];
    destruct accessible; try reflexivity.
  destruct (Headers.set (lit "Set-Cookie") cookieString headers); reflexivity.
Qed.

Lemma warn_nothing (svc : Service Document) : warn svc [] = svc.
Proof. destruct svc; unfold warn; cbn; rewrite app_nil_r; reflexivity. Qed.

(** C6: for every name and value that can be encoded and every attributes
    object with [secure: false] and [sameSite: 'None'], the builder returns,
    with one warning, the cookie string it returns for [secure: true]; the
    string contains [secure;] and [sameSite=None;].  [set] with that object,
    and [set] with the same attributes as positional arguments, print the
    warning and write the string: in the browser it is assigned to
    [document.cookie]; on the server it is stored under [Set-Cookie], and
    read back from there as it was built, when [path] and [domain] are fit
    for a header (bytes without NUL, CR and LF); without response headers
    the call returns with the warning alone.  In every case the call ends
    as the call with [secure: true] ends, the warning apart. *)
Theorem secure_coercion_recovers (svc : Service Document) (now : Z)
    (name value encodedName encodedValue : jsstring) (options : Options) :
  encodeURIComponent name = Some encodedName ->
  encodeURIComponent value = Some encodedValue ->
  secure options = Some false ->
  sameSite options = Some None_ ->
  let secured := {| expires := expires options; path := path options;
                    domain := domain options; secure := Some true;
                    sameSite := Some None_;
                    partitioned := partitioned options |} in
  let outcome := setOptions assignCookie svc now name value (Some options) in
  exists cookieString,
    cookieStringOf now name value options
    = Normal (cookieString, [warningText name]) /\
    includes (lit "secure;") cookieString = true /\
    includes (lit "sameSite=None;") cookieString = true /\
    cookieStringOf now name value secured = Normal (cookieString, []) /\
    setPositional assignCookie svc now name value (expires options)
      (path options) (domain options) (Some false) (Some None_)
      (partitioned options)
    = outcome /\
    outcome
    = match setOptions assignCookie svc now name value (Some secured) with
      | Returned svc' => Returned (warn svc' [warningText name])
      | Threw e svc' => Threw e (warn svc' [warningText name])
      end /\
    (documentIsAccessible svc = true ->
     outcome
     = Returned {| documentIsAccessible := true;
                   document := assignCookie cookieString (document svc);
                   request := request svc;
                   responseInit := responseInit svc;
                   console := console svc ++ [warningText name] |}) /\
    (documentIsAccessible svc = false ->
     match responseInit svc with
     | Some (Some headers) =>
         (forall p, path options = Some p -> Headers.validValue p = true) ->
         (forall d, domain options = Some d -> Headers.validValue d = true) ->
         exists headers',
           Headers.set (lit "Set-Cookie") cookieString headers = Some headers' /\
           Headers.get (lit "Set-Cookie") headers' = Some cookieString /\
           outcome
           = Returned {| documentIsAccessible := false;
                         document := document svc;
                         request := request svc;
                         responseInit := Some (Some headers');
                         console := console svc ++ [warningText name] |}
     | _ => outcome = Returned (warn svc [warningText name])
     end).
Proof.
  intros Hn Hv Hs Hss secured outcome.
  set (cookieString :=
         (encodedName ++ lit "=" ++ encodedValue ++ lit ";" ++
          expiresPart now (expires options) ++
          (if truthyString (path options)
           then lit "path=" ++ toStringOrUndefined (path options) ++ lit ";"
           else []) ++
          (if truthyString (domain options)
           then lit "domain=" ++ toStringOrUndefined (domain options) ++ lit ";"
           else [])) ++
         lit "secure;" ++ lit "sameSite=None;" ++
         (if truthyBool (partitioned options) then lit "Partitioned;" else [])).
  assert (E : cookieStringOf now name value options
              = Normal (cookieString, [warningText name])).
  { unfold cookieStringOf, coerced; rewrite Hn, Hv, Hs, Hss.
    cbn [truthyBool sameSiteText]; unfold cookieString.
    rewrite <- !app_assoc; reflexivity. }
  assert (E' : cookieStringOf now name value secured
               = Normal (cookieString, [])).
  { unfold cookieStringOf, coerced, secured; rewrite Hn, Hv.
    cbn [secure sameSite expires path domain partitioned truthyBool
         sameSiteText]; unfold cookieString.
    rewrite <- !app_assoc; reflexivity. }
  assert (O : outcome
              = write assignCookie (warn svc [warningText name]) cookieString).
  { unfold outcome; rewrite setOptions_setWith; unfold setWith; rewrite E.
    reflexivity. }
  exists cookieString; split; [exact E |].
  split; [eapply includes_at; reflexivity |].
  split; [eapply includes_at; unfold cookieString;
          rewrite (app_assoc _ (lit "secure;")); reflexivity |].
  split; [exact E' |].
  split; [| split; [| split]].
  - rewrite O, setPositional_setWith.
    + unfold optionsBody; rewrite <- Hs, <- Hss at 1.
      replace (Some match sameSite options with Some x => x | None => Lax end)
        with (sameSite options) by (rewrite Hss; reflexivity).
      rewrite options_eta; unfold setWith; rewrite E; reflexivity.
    + destruct (expires options) as [[days | dt] |]; try reflexivity.
      cbn [attributeLike isSome]; rewrite !orb_true_r; reflexivity.
  - rewrite O, setOptions_setWith; unfold setWith; rewrite E'.
    rewrite warn_nothing; apply write_warn.
  - intros Hd; rewrite O; unfold write.
    cbn [warn documentIsAccessible responseInit document request console].
    rewrite Hd; reflexivity.
  - intros Hd; destruct (responseInit svc) as [[headers |] |] eqn:Hr.
    + intros Hp Hdm.
      destruct (cookieStringOf_valid _ _ _ _ _ _ Hp Hdm E) as [Hvalid Hnorm].
      destruct (Headers.set (lit "Set-Cookie") cookieString headers)
        as [headers' |] eqn:S.
      * exists headers'; split; [reflexivity |]; split.
        -- rewrite (get_after_set _ _ _ _ S), Hnorm; reflexivity.
        -- rewrite O; unfold write.
           cbn [warn documentIsAccessible responseInit document request console].
           rewrite Hd, Hr, S; reflexivity.
      * unfold Headers.set in S; rewrite Hnorm, Hvalid in S; discriminate S.
    + rewrite O; unfold write.
      cbn [warn documentIsAccessible responseInit document request console].
      rewrite Hd, Hr; reflexivity.
    + rewrite O; unfold write.
      cbn [warn documentIsAccessible responseInit document request console].
      rewrite Hd, Hr; reflexivity.
Qed.

End Coercion.

Lemma secure_coercion_recovers_witness :
  setOptions noAssignCookie (serverInstance None []) 0 (lit "x") (lit "y")
    (Some {| expires := None; path := Some (lit "/"); domain := None;
             secure := Some false; sameSite := Some None_;
             partitioned := None |})
  = Returned
      {| documentIsAccessible := false; document := tt;
         request := Some [];
         responseInit :=
           Some (Some [(lit "Set-Cookie", lit "x=y;path=/;secure;sameSite=None;")]);
         console := [warningText (lit "x")] |} /\
  setOptions recordAssign (browserInstance (lit "a=1")) 0 (lit "x") (lit "y")
    (Some {| expires := None; path := Some (lit "/"); domain := None;
             secure := Some false; sameSite := Some None_;
             partitioned := None |})
  = Returned
      {| documentIsAccessible := true;
         document := (lit "a=1", [lit "x=y;path=/;secure;sameSite=None;"]);
         request := None;
         responseInit := None;
         console := [warningText (lit "x")] |}.
Proof.
  split.
  - destruct (secure_coercion_recovers noAssignCookie (serverInstance None []) 0
                (lit "x") (lit "y") (lit "x") (lit "y")
                {| expires := None; path := Some (lit "/"); domain := None;
                   secure := Some false; sameSite := Some None_;
                   partitioned := None |}
                eq_refl eq_refl eq_refl eq_refl)
      as (s & Hs & _ & _ & _ & _ & _ & _ & Hserver).
    injection Hs as <-.
    destruct (Hserver eq_refl) as (h & Hh & _ & Hset).
    + intros p [= <-]; reflexivity.
    + intros d [=].
    + rewrite Hset; injection Hh as <-; reflexivity.
  - destruct (secure_coercion_recovers recordAssign (browserInstance (lit "a=1")) 0
                (lit "x") (lit "y") (lit "x") (lit "y")
                {| expires := None; path := Some (lit "/"); domain := None;
                   secure := Some false; sameSite := Some None_;
                   partitioned := None |}
                eq_refl eq_refl eq_refl eq_refl)
      as (s & Hs & _ & _ & _ & _ & _ & Hbrowser & _).
    injection Hs as <-.
    rewrite (Hbrowser eq_refl); reflexivity.
Defined.

End CoercionFacts.

(** ** Round trips *)

Module RoundTripCoverage.
Import URI URIFacts RegExp RegExpFacts ParserFacts DuplicateFacts.

Lemma put_fresh (k v : jsstring) (o : JsObject.t) :
  ~ In k (map fst o) -> JsObject.put k v o = o ++ [(k, v)].
Proof.
  induction o as [| [k' v'] o IH]; cbn [JsObject.put map fst In app];
    intros H; [reflexivity |].
  rewrite streq_neq by (intros ->; apply H; left; reflexivity).
  rewrite IH; [reflexivity | intros Hi; apply H; right; assumption].
Qed.

Lemma fold_assign_fresh (cookies : list (jsstring * jsstring)) (o : JsObject.t) :
  NoDup (map fst cookies) ->
  ~ In (lit "__proto__") (map fst cookies) ->
  (forall k, In k (map fst cookies) -> ~ In k (map fst o)) ->
  fold_left (fun acc c => JsObject.assign (fst c) (snd c) acc) cookies o
  = o ++ cookies.
Proof.
  revert o; induction cookies as [| [n v] rest IH]; intros o Hd Hp Hf;
    cbn [fold_left map fst snd]; [rewrite app_nil_r; reflexivity |].
  cbn [map fst] in Hd, Hp, Hf; inversion Hd as [| ? ? Hn Hd']; subst.
  unfold JsObject.assign at 2.
  rewrite streq_neq by (intros ->; apply Hp; left; reflexivity).
  rewrite put_fresh by (apply Hf; left; reflexivity).
  rewrite IH; [rewrite <- app_assoc; reflexivity | assumption | |].
  - intros Hi; apply Hp; right; assumption.
  - intros k Hk; rewrite map_app, in_app_iff; cbn [map fst In].
    intros [Ho | [<- | []]]; [| contradiction].
    apply (Hf k); [right; assumption | assumption].
Qed.

(** X20: [getAll] gives back the cookies a raw cookie string was made of:
    for cookies with distinct names, none of them [__proto__], written as
    percent-encoded [name=value] pairs joined by [; ], the object holds
    exactly these names and values, in their order. *)
Theorem getAll_of_raw_cookie_string (cookies : list (jsstring * jsstring))
    (cookieString : jsstring) :
  rawCookieString cookies = Some cookieString ->
  NoDup (map fst cookies) ->
  ~ In (lit "__proto__") (map fst cookies) ->
  parseAll cookieString = cookies.
Proof.
  unfold rawCookieString; intros Hraw Hd Hp.
  destruct (encodeCookies cookies) as [pairs |] eqn:E; [| discriminate].
  injection Hraw as <-.
  rewrite parseAll_joined by (eapply encodeCookies_tokens; eassumption).
  rewrite (fold_decoded _ _ _ E), fold_assign_fresh; auto.
Qed.

Lemma getAll_of_raw_cookie_string_witness :
  parseAll (lit "a=1; b%20c=x%3Dy") = [(lit "a", lit "1"); (lit "b c", lit "x=y")].
Proof.
  apply (getAll_of_raw_cookie_string [(lit "a", lit "1"); (lit "b c", lit "x=y")]).
  - reflexivity.
  - repeat constructor; cbn; intuition discriminate.
  - cbn; intuition discriminate.
Defined.

(** X21: the decoder leaves a string without [%] as it is. *)
Theorem safeDecode_plain_text (s : jsstring) :
  Forall (fun c => (c =? 37) = false) s -> safeDecodeURIComponent s = s.
Proof.
  intros H; unfold safeDecodeURIComponent, decodeURIComponent.
  assert (E : decodeFrom 0 s = Some s).
  { induction H as [| c s Hc _ IH]; [reflexivity |].
    rewrite decodeFrom_plain, IH by assumption; reflexivity. }
  rewrite E; reflexivity.
Qed.

Lemma safeDecode_plain_text_witness :
  safeDecodeURIComponent (lit "a b;c") = lit "a b;c".
Proof.
  apply (safeDecode_plain_text (lit "a b;c")); repeat constructor.
Defined.

(** X22: the decoder undoes the encoding that [set] applies to names and
    values: whatever string [encodeURIComponent] accepts comes back from its
    encoded form, and two strings with the same encoded form are equal. *)
Theorem safeDecode_undoes_encode (v w encoded : jsstring) :
  encodeURIComponent v = Some encoded ->
  safeDecodeURIComponent encoded = v /\
  (encodeURIComponent w = Some encoded -> w = v).
Proof.
  intros H; split.
  - unfold safeDecodeURIComponent; rewrite (decode_encode _ _ H); reflexivity.
  - intros Hw; apply (encode_inj _ _ _ Hw H).
Qed.

Lemma safeDecode_undoes_encode_witness :
  safeDecodeURIComponent (lit "%E2%82%AC%20%3D%3B") = [8364; 32; 61; 59].
Proof.
  apply (proj1 (safeDecode_undoes_encode [8364; 32; 61; 59] [] _ eq_refl)).
Defined.

End RoundTripCoverage.

(** ** [deleteAll] in the browser *)

Module DeleteAllCoverage.
Import URI URIFacts RegExp RegExpFacts ParserFacts DuplicateFacts ServiceFacts BuilderFacts.
Import RoundTripCoverage.

Lemma keys_plain (o : JsObject.t) :
  Forall (fun k => JsObject.arrayIndex k = None) (map fst o) ->
  JsObject.keys o = map fst o.
Proof.
  intros H; unfold JsObject.keys.
  assert (I : forall acc,
             fold_left (fun acc kv =>
                          match JsObject.arrayIndex (fst kv) with
                          | Some i => JsObject.insertIndex i (fst kv) acc
                          | None => acc
                          end) o acc = acc).
  { induction o as [| [k v] o IH]; intros acc; [reflexivity |].
    cbn [map fst] in H; inversion H as [| ? ? Hk Ho]; subst.
    cbn [fold_left fst]; rewrite Hk; apply IH; assumption. }
  unfold JsObject.indexKeys; rewrite I; cbn [map app].
  induction H as [| k l Hk _ IH]; [reflexivity |].
  cbn [filter]; rewrite Hk, IH; reflexivity.
Qed.

Lemma get_absent (k : jsstring) (o : JsObject.t) :
  ~ In k (map fst o) -> JsObject.get k o = None.
Proof.
  induction o as [| [k' v] o IH]; cbn [JsObject.get map fst In]; intros H;
    [reflexivity |].
  rewrite streq_neq by (intros ->; apply H; left; reflexivity).
  apply IH; intros Hi; apply H; right; assumption.
Qed.

Section Browser.

Context {Document : Type}.
Variable documentCookie : Document -> jsstring.
Variable assignCookie : jsstring -> Document -> Document.

Lemma delete_browser (svc : Service Document) (now : Z) (name en : jsstring)
    (p d : option jsstring) (sec : option bool) (ss : option SameSite) :
  documentIsAccessible svc = true ->
  encodeURIComponent name = Some en ->
  ~ (sec = Some false /\ ss = Some None_) ->
  exists svc',
    delete assignCookie svc now name p d sec ss = Returned svc' /\
    documentIsAccessible svc' = true /\
    document svc' = assignCookie (deletedCookie p d sec ss name) (document svc) /\
    request svc' = request svc /\ responseInit svc' = responseInit svc /\
    console svc' = console svc.
Proof.
  intros Hd Hn Hc.
  unfold delete, set; cbn [attributeLike truthyString truthyBool isSome orb].
  unfold setWith, deletedCookie, cookieStringOf; rewrite Hn.
  cbn [encodeURIComponent expires expiresPart].
  assert (C : coerced {| expires := Some (ExpDate expiresDate);
                         path := p; domain := d; secure := sec;
                         sameSite := Some match ss with
                                          | Some x => x
                                          | None => Lax
                                          end;
                         partitioned := None |} = false).
  { unfold coerced; cbn [secure sameSite].
    destruct sec as [[|] |], ss as [[| |] |]; try reflexivity.
    exfalso; apply Hc; split; reflexivity. }
  rewrite C; unfold write; cbn [warn documentIsAccessible]; rewrite Hd.
  eexists; split; [reflexivity |].
  cbn [warn documentIsAccessible document request responseInit console].
  rewrite (app_nil_r (console svc)); repeat split; reflexivity.
Qed.

Lemma deleteEach_browser (names : list jsstring) (svc : Service Document)
    (now : Z) (path domain : option jsstring) (secure : option bool)
    (sameSite : option SameSite) :
  documentIsAccessible svc = true ->
  Forall (fun n => encodeURIComponent n <> None) names ->
  ~ (secure = Some false /\ sameSite = Some None_) ->
  exists svc',
    deleteEach assignCookie svc now names path domain secure sameSite
    = Returned svc' /\
    documentIsAccessible svc' = true /\
    document svc'
    = fold_left (fun d n => assignCookie (deletedCookie path domain secure sameSite n) d)
                names (document svc) /\
    request svc' = request svc /\ responseInit svc' = responseInit svc /\
    console svc' = console svc.
Proof.
  intros Hd Hn Hc; revert svc Hd; induction Hn as [| n names Hen _ IH];
    intros svc Hd; cbn [deleteEach fold_left].
  - exists svc; repeat split; assumption.
  - destruct (encodeURIComponent n) as [en |] eqn:E; [| contradiction].
    destruct (delete_browser svc now n en path domain secure sameSite Hd E Hc)
      as (s1 & -> & D1 & Doc1 & R1 & P1 & C1).
    destruct (IH s1 D1) as (s2 & -> & D2 & Doc2 & R2 & P2 & C2).
    exists s2; rewrite Doc2, Doc1; repeat split; congruence.
Qed.

(** X23: in the browser, on a raw cookie string of cookies with distinct
    names (none of them an array index, [__proto__] or [hasOwnProperty]),
    [deleteAll] assigns to the document one expired cookie per name, in the
    order of the string, and changes nothing else. *)
Theorem deleteAll_deletes_each_name (svc : Service Document) (now : Z)
    (cookies : list (jsstring * jsstring))
    (path domain : option jsstring) (secure : option bool)
    (sameSite : option SameSite) :
  documentIsAccessible svc = true ->
  rawCookieString cookies = Some (documentCookie (document svc)) ->
  NoDup (map fst cookies) ->
  Forall (fun n => JsObject.arrayIndex n = None /\ n <> lit "__proto__" /\
                   n <> lit "hasOwnProperty") (map fst cookies) ->
  ~ (secure = Some false /\ sameSite = Some None_) ->
  exists svc',
    deleteAll documentCookie assignCookie svc now path domain secure sameSite
    = Returned svc' /\
    document svc'
    = fold_left (fun d n => assignCookie (deletedCookie path domain secure sameSite n) d)
                (map fst cookies) (document svc) /\
    request svc' = request svc /\ responseInit svc' = responseInit svc /\
    console svc' = console svc.
Proof.
  intros Hd Hraw Hnd Hnames Hc.
  assert (G : getAll documentCookie svc = cookies).
  { unfold getAll, cookie; rewrite Hd; unfold rawCookieString in Hraw.
    destruct (encodeCookies cookies) as [pairs |] eqn:E; [| discriminate].
    injection Hraw as <-.
    rewrite parseAll_joined by (eapply encodeCookies_tokens; eassumption).
    rewrite (fold_decoded _ _ _ E).
    apply fold_assign_fresh; [assumption | | intros k _ []].
    rewrite Forall_forall in Hnames; intros Hi.
    destruct (Hnames _ Hi) as (_ & Hp & _); apply Hp; reflexivity. }
  unfold deleteAll; rewrite G.
  rewrite keys_plain
    by (eapply Forall_impl; [| exact Hnames]; cbv beta; tauto).
  destruct (map fst cookies) as [| n names] eqn:K.
  - exists svc; repeat split.
  - rewrite <- K in *.
    rewrite get_absent.
    + assert (En : Forall (fun n => encodeURIComponent n <> None)
                          (map fst cookies)).
      { unfold rawCookieString in Hraw.
        destruct (encodeCookies cookies) as [pairs |] eqn:E; [| discriminate].
        clear - E; revert pairs E.
        induction cookies as [| [k v] rest IH]; intros pairs;
          cbn [encodeCookies map fst]; [constructor |].
        destruct (encodeURIComponent k) as [ek |] eqn:Ek; [| discriminate].
        destruct (encodeURIComponent v) as [ev |]; [| discriminate].
        destruct (encodeCookies rest) as [r |]; [| discriminate].
        intros _; constructor; [rewrite Ek; discriminate | eapply IH; reflexivity]. }
      destruct (deleteEach_browser (map fst cookies) svc now path domain secure
                  sameSite Hd En Hc) as (s' & E' & _ & Doc & R & P & C).
      exists s'; repeat split; assumption.
    + rewrite Forall_forall in Hnames; intros Hi.
      destruct (Hnames _ Hi) as (_ & _ & Hh); apply Hh; reflexivity.
Qed.

End Browser.


Lemma deleteAll_deletes_each_name_witness :
  exists svc',
    deleteAll recordedCookie recordAssign (browserInstance (lit "a=1; b=2")) 0
      (Some (lit "/")) None None None
    = Returned svc' /\
    document svc'
    = (lit "a=1; b=2",
       [lit "a=;expires=Thu, 01 Jan 1970 00:00:01 GMT;path=/;sameSite=Lax;";
        lit "b=;expires=Thu, 01 Jan 1970 00:00:01 GMT;path=/;sameSite=Lax;"]) /\
    request svc' = None /\ responseInit svc' = None /\ console svc' = [].
Proof.
  apply (deleteAll_deletes_each_name recordedCookie recordAssign
           (browserInstance (lit "a=1; b=2")) 0
           [(lit "a", lit "1"); (lit "b", lit "2")]
           (Some (lit "/")) None None None).
  - reflexivity.
  - reflexivity.
  - repeat constructor; cbn; intuition discriminate.
  - repeat constructor; intros E; discriminate E.
  - intros [E _]; discriminate E.
Defined.

End DeleteAllCoverage.

(** ** Checks of the model on known values *)

Module Examples.

Example enc_ex1 :
  URI.encodeURIComponent (lit "a b;c=d") = Some (lit "a%20b%3Bc%3Dd").
Proof. reflexivity. Qed.
Example enc_ex2 :
  URI.encodeURIComponent [233; 8364; 55357; 56832]
  = Some (lit "%C3%A9%E2%82%AC%F0%9F%98%80").
Proof. reflexivity. Qed.
Example enc_ex3 : URI.encodeURIComponent [97; 55357] = None.
Proof. reflexivity. Qed.
Example dec_ex1 :
  URI.decodeURIComponent (lit "%C3%A9%E2%82%AC%F0%9F%98%80x%3d")
  = Some [233; 8364; 55357; 56832; 120; 61].
Proof. reflexivity. Qed.
Example dec_ex2 : URI.decodeURIComponent (lit "%") = None.
Proof. reflexivity. Qed.
Example dec_ex3 : URI.decodeURIComponent (lit "%C0%80") = None.
Proof. reflexivity. Qed.
Example dec_ex4 : URI.decodeURIComponent (lit "%ED%A0%80") = None.
Proof. reflexivity. Qed.
Example dec_ex5 : URI.decodeURIComponent (lit "%F4%90%80%80") = None.
Proof. reflexivity. Qed.
Example split_ex1 : split 61 (lit "a=b=c") = [lit "a"; lit "b"; lit "c"].
Proof. reflexivity. Qed.
Example parse_ex1 : parseAll (lit "a=1; b=2") = [(lit "a", lit "1"); (lit "b", lit "2")].
Proof. reflexivity. Qed.
Example re_ex1 : RegExp.exec {| RegExp.literal := lit "foo" |} (lit "foobar=1; foo=2;x") = Some (lit "2").
Proof. reflexivity. Qed.
Example re_ex2 : getCookieRegExp (lit "a.b") = Some {| RegExp.literal := lit "a.b" |}.
Proof. reflexivity. Qed.
Example re_ex3 : RegExp.patternSource (lit "a.b") = lit "(?:^a\.b|;\s*a\.b)=(.*?)(?:;|$)".
Proof. reflexivity. Qed.
Example date_ex1 : JsDate.toUTCString (Some 1700000000000) = lit "Tue, 14 Nov 2023 22:13:20 GMT".
Proof. reflexivity. Qed.
Example date_ex2 : JsDate.toUTCString (Some 1000) = lit "Thu, 01 Jan 1970 00:00:01 GMT".
Proof. reflexivity. Qed.
Example date_ex3 : JsDate.toUTCString (Some (-1)) = lit "Wed, 31 Dec 1969 23:59:59 GMT".
Proof. reflexivity. Qed.
Example date_ex4 : JsDate.toUTCString (Some 951782400000) = lit "Tue, 29 Feb 2000 00:00:00 GMT".
Proof. reflexivity. Qed.
Example date_ex5 : JsDate.toUTCString (Some 8640000000000000) = lit "Sat, 13 Sep 275760 00:00:00 GMT".
Proof. reflexivity. Qed.
Example date_ex6 : JsDate.toUTCString (Some (-8640000000000000)) = lit "Tue, 20 Apr -271821 00:00:00 GMT".
Proof. reflexivity. Qed.
Example date_ex7 : JsDate.toUTCString (Some (-62198755200000)) = lit "Fri, 01 Jan -0001 00:00:00 GMT".
Proof. reflexivity. Qed.
Example build_ex1 : cookieStringOf 0 (lit "x") (lit "y") noOptions = Normal (lit "x=y;sameSite=Lax;", []).
Proof. reflexivity. Qed.
Example build_ex2 : cookieStringOf 0 (lit "x") (lit "y") (optionsBody (Some (ExpNumber 1)) (Some (lit "/")) None (Some false) (Some None_) (Some true)) = Normal (lit "x=y;expires=Fri, 02 Jan 1970 00:00:00 GMT;path=/;secure;sameSite=None;Partitioned;", [warningText (lit "x")]).
Proof. reflexivity. Qed.

End Examples.
